(** * dejavu: decoder, buffer recognizer and CockroachDB fingerprint store

    A shallow embedding of
      - [dejavu/logic/decoder.py]                    (content hash, PCM decoding),
      - [dejavu/logic/recognizer/buffer_recognizer.py] (the buffer adapter),
      - [dejavu/database_handler/cockroach_database.py] (schema and statements),
    followed by the properties of the specification stated over it.

    Python exceptions are values of [exn]; a call that may raise returns a
    [result].  Bytes are [Byte.byte], Python integers are [Z]. *)

From Stdlib.Strings Require Import String Ascii Byte.
From Stdlib Require Import ZArith List Bool Lia Permutation.
Import ListNotations.
Local Open Scope string_scope.
Local Open Scope list_scope.
Local Open Scope Z_scope.

(* ================================================================== *)
(** ** Exceptions and results *)

Inductive exn : Type :=
| TypeError (msg : string)
| ValueError
| AttributeError
| IndexError
| AudioopError            (* pydub.utils.audioop.error *)
| LibraryError            (* any other exception of pydub, wavio or the OS *)
| DataError               (* psycopg2: malformed value for a column type *)
| IntegrityError.         (* psycopg2: constraint violation *)

Inductive result (A : Type) : Type :=
| Ok (a : A)
| Raise (e : exn).
Arguments Ok {A} a.
Arguments Raise {A} e.

Definition bind {A B} (r : result A) (k : A -> result B) : result B :=
  match r with
  | Ok a => k a
  | Raise e => Raise e
  end.

Notation "x <- r ;; k" := (bind r (fun x => k))
  (at level 61, r at next level, right associativity).

Definition is_ok {A} (r : result A) : bool :=
  match r with Ok _ => true | Raise _ => false end.

Fixpoint mapM {A B} (f : A -> result B) (l : list A) : result (list B) :=
  match l with
  | [] => Ok []
  | a :: l' => b <- f a ;; bs <- mapM f l' ;; Ok (b :: bs)
  end.

(* ================================================================== *)
(** ** Bytes, Python slices and hexadecimal text *)

Definition bytes := list byte.

Definition byte_val (b : byte) : Z := Z.of_N (Byte.to_N b).

Definition byte_of_Z (z : Z) : byte :=
  match Byte.of_N (Z.to_N (z mod 256)) with
  | Some b => b
  | None => x00
  end.

Definition len {A} (l : list A) : Z := Z.of_nat (length l).

(** [l[start:stop]] for Python integers, step 1: negative positions count
    from the end, and both ends are clamped to the sequence. *)
Definition py_clamp (n i : Z) : Z :=
  if i <? 0 then Z.max (i + n) 0 else Z.min i n.

Definition py_slice {A} (l : list A) (start stop : Z) : list A :=
  let s := py_clamp (len l) start in
  let e := py_clamp (len l) stop in
  firstn (Z.to_nat (e - s)) (skipn (Z.to_nat s) l).

(** [l[start::step]] for [0 <= start] and [0 < step]: the elements at
    positions start, start+step, start+2*step, ... *)
Fixpoint take_every {A} (step : nat) (l : list A) (fuel : nat) : list A :=
  match fuel with
  | O => []
  | S f =>
      match l with
      | [] => []
      | a :: _ => a :: take_every step (skipn step l) f
      end
  end.

Definition py_stride {A} (l : list A) (start step : Z) : list A :=
  take_every (Z.to_nat step) (skipn (Z.to_nat start) l) (length l).

Definition hex_digit (upper : bool) (n : Z) : ascii :=
  if n <? 10 then ascii_of_N (Z.to_N (48 + n))
  else ascii_of_N (Z.to_N ((if upper then 55 else 87) + n)).

(** The value of one hexadecimal digit, either case. *)
Definition hex_value (c : ascii) : option Z :=
  let n := Z.of_N (N_of_ascii c) in
  if (48 <=? n) && (n <=? 57) then Some (n - 48)
  else if (65 <=? n) && (n <=? 70) then Some (n - 55)
  else if (97 <=? n) && (n <=? 102) then Some (n - 87)
  else None.

Fixpoint hex_encode (upper : bool) (bs : bytes) : string :=
  match bs with
  | [] => EmptyString
  | b :: bs' =>
      String (hex_digit upper (byte_val b / 16))
        (String (hex_digit upper (byte_val b mod 16)) (hex_encode upper bs'))
  end.

(** SQL [decode(text, 'hex')]: two digits per byte, either case; an odd
    number of digits or a character that is no digit is an error. *)
Fixpoint hex_decode (s : string) : option bytes :=
  match s with
  | EmptyString => Some []
  | String _ EmptyString => None
  | String c1 (String c2 s') =>
      match hex_value c1, hex_value c2, hex_decode s' with
      | Some h, Some l, Some bs => Some (byte_of_Z (16 * h + l) :: bs)
      | _, _, _ => None
      end
  end.

(** Python [str.upper] and SQL [upper] on ASCII text. *)
Definition upper_char (c : ascii) : ascii :=
  let n := Z.of_N (N_of_ascii c) in
  if (97 <=? n) && (n <=? 122) then ascii_of_N (Z.to_N (n - 32)) else c.

Fixpoint upper (s : string) : string :=
  match s with
  | EmptyString => EmptyString
  | String c s' => String (upper_char c) (upper s')
  end.

(* ================================================================== *)
(** ** hashlib.sha1

    The digest function is FIPS 180-4 SHA-1 on 32-bit words held in [Z].
    A hash object is the message it has been fed so far: [update] appends,
    [hexdigest] hashes the whole, as hashlib documents
    ([m.update(a); m.update(b)] is [m.update(a+b)]). *)

Module SHA1.

Definition w32 (x : Z) : Z := x mod 2 ^ 32.

Definition rotl (n x : Z) : Z :=
  w32 (Z.lor (Z.shiftl x n) (Z.shiftr x (32 - n))).

Definition be_word (b0 b1 b2 b3 : byte) : Z :=
  ((byte_val b0 * 256 + byte_val b1) * 256 + byte_val b2) * 256 + byte_val b3.

Definition word_bytes (w : Z) : bytes :=
  [byte_of_Z (w / 2 ^ 24); byte_of_Z (w / 2 ^ 16);
   byte_of_Z (w / 2 ^ 8); byte_of_Z w].

(** Message, 0x80, zeros up to 56 mod 64, then the bit length on 8 bytes. *)
Definition pad (msg : bytes) : bytes :=
  let n := len msg in
  let zeros := (55 - n) mod 64 in
  msg ++ [x80] ++ repeat x00 (Z.to_nat zeros)
      ++ word_bytes ((8 * n) / 2 ^ 32) ++ word_bytes (8 * n).

Fixpoint words (bs : bytes) : list Z :=
  match bs with
  | b0 :: b1 :: b2 :: b3 :: bs' => be_word b0 b1 b2 b3 :: words bs'
  | _ => []
  end.

(** The schedule, newest word first: [ws] holds W[t-1], W[t-2], ... *)
Fixpoint extend (n : nat) (ws : list Z) : list Z :=
  match n with
  | O => ws
  | S n' =>
      let w := rotl 1 (Z.lxor (Z.lxor (nth 2 ws 0) (nth 7 ws 0))
                              (Z.lxor (nth 13 ws 0) (nth 15 ws 0))) in
      extend n' (w :: ws)
  end.

Definition schedule (block : list Z) : list Z :=
  rev (extend 64 (rev block)).

Definition state : Type := Z * Z * Z * Z * Z.

Definition round (t : nat) (st : state) (w : Z) : state :=
  let '(a, b, c, d, e) := st in
  let '(f, k) :=
    if (t <? 20)%nat then
      (Z.lor (Z.land b c) (Z.land (Z.lxor b (2 ^ 32 - 1)) d), 1518500249)
    else if (t <? 40)%nat then
      (Z.lxor (Z.lxor b c) d, 1859775393)
    else if (t <? 60)%nat then
      (Z.lor (Z.lor (Z.land b c) (Z.land b d)) (Z.land c d), 2400959708)
    else
      (Z.lxor (Z.lxor b c) d, 3395469782) in
  (w32 (rotl 5 a + f + e + k + w), a, rotl 30 b, c, d).

Fixpoint rounds (t : nat) (st : state) (ws : list Z) : state :=
  match ws with
  | [] => st
  | w :: ws' => rounds (S t) (round t st w) ws'
  end.

Definition compress (h : state) (block : list Z) : state :=
  let '(h0, h1, h2, h3, h4) := h in
  let '(a, b, c, d, e) := rounds 0 h (schedule block) in
  (w32 (h0 + a), w32 (h1 + b), w32 (h2 + c), w32 (h3 + d), w32 (h4 + e)).

Fixpoint blocks (fuel : nat) (h : state) (ws : list Z) : state :=
  match fuel with
  | O => h
  | S f =>
      match ws with
      | [] => h
      | _ => blocks f (compress h (firstn 16 ws)) (skipn 16 ws)
      end
  end.

Definition init : state :=
  (1732584193, 4023233417, 2562383102, 271733878, 3285377520).

Definition digest (msg : bytes) : bytes :=
  let ws := words (pad msg) in
  let '(h0, h1, h2, h3, h4) := blocks (length ws) init ws in
  word_bytes h0 ++ word_bytes h1 ++ word_bytes h2
    ++ word_bytes h3 ++ word_bytes h4.

(** The hash object. *)
Record t : Type := mk { message : bytes }.

Definition new : t := mk [].
Definition update (s : t) (buf : bytes) : t := mk (message s ++ buf).
Definition hexdigest (s : t) : string := hex_encode false (digest (message s)).

End SHA1.

Example sha1_abc :
  SHA1.hexdigest (SHA1.update SHA1.new [x61; x62; x63])
  = "a9993e364706816aba3e25717850c26c9cd0d89d"%string.
Proof. vm_compute. reflexivity. Qed.

Example sha1_empty :
  SHA1.hexdigest SHA1.new = "da39a3ee5e6b4b0d3255bfef95601890afd80709"%string.
Proof. vm_compute. reflexivity. Qed.

(* ================================================================== *)
(** ** dejavu/logic/decoder.py *)

(** *** unique_bytes_hash and unique_hash

    The [while] loops run on fuel: [None] stands for a loop that has not
    ended within [fuel] iterations. *)

Fixpoint hash_loop (fuel : nat) (s : SHA1.t) (buffer : bytes)
         (index block_size : Z) : option SHA1.t :=
  match fuel with
  | O => None
  | S f =>
      if index <? len buffer then
        let buf := py_slice buffer index (index + block_size) in
        hash_loop f (SHA1.update s buf) buffer (index + block_size) block_size
      else Some s
  end.

Definition unique_bytes_hash (fuel : nat) (data : bytes) (block_size : Z)
  : option string :=
  option_map (fun s => upper (SHA1.hexdigest s))
             (hash_loop fuel SHA1.new data 0 block_size).

Definition default_block_size : Z := 2 ^ 20.

(** [unique_bytes_hash(data)] with the default block size, as the decoder
    calls it.  The default is positive, so the loop ends within
    [len(data) + 1] iterations ([unique_bytes_hash_default_eq]). *)
Definition unique_bytes_hash_default (data : bytes) : string :=
  match unique_bytes_hash (S (length data)) data default_block_size with
  | Some h => h
  | None => EmptyString
  end.

(** [f.read(n)] on the unread rest of a file opened with ["rb"]: the
    next [n] bytes, everything for [-1], and ValueError for a size below
    [-1]. *)
Definition file_read (rest : bytes) (n : Z) : result bytes :=
  if n <? -1 then Raise ValueError
  else if n <? 0 then Ok rest
  else Ok (firstn (Z.to_nat n) rest).

(** [None] when the fuel runs out, else how the loop ended. *)
Fixpoint file_hash_loop (fuel : nat) (s : SHA1.t) (rest : bytes)
         (block_size : Z) : option (result SHA1.t) :=
  match fuel with
  | O => None
  | S f =>
      match file_read rest block_size with
      | Raise e => Some (Raise e)
      | Ok [] => Some (Ok s)
      | Ok buf => file_hash_loop f (SHA1.update s buf)
                                 (skipn (length buf) rest) block_size
      end
  end.

(** *** pydub.AudioSegment *)

Record AudioSegment : Type := mkSegment {
  raw_data : bytes;
  sample_width : Z;
  frame_rate : Z;
  channels : Z;
  frame_width : Z
}.

(** pydub widens 24-bit samples to 32 bits when a segment is built: each
    group of three bytes gets a sign byte in front, an incomplete last group
    is dropped. *)
Fixpoint widen_24 (data : bytes) : bytes :=
  match data with
  | b0 :: b1 :: b2 :: rest =>
      (if 127 <? byte_val b2 then xff else x00) :: b0 :: b1 :: b2 :: widen_24 rest
  | _ => []
  end.

(** The segment pydub builds from raw bytes and the three parameters. *)
Definition raw_segment (data : bytes) (sw fr ch : Z) : AudioSegment :=
  if sw =? 3 then mkSegment (widen_24 data) 4 fr ch (ch * 4)
  else mkSegment data sw fr ch (ch * sw).

(** [AudioSegment.from_raw(io.BytesIO(data), sample_width=, frame_rate=,
    channels=)]: the bytes are taken as they are, no length is checked.
    For 24-bit samples the constructor looks at [data[0]] before it
    widens the samples, which raises IndexError on empty data. *)
Definition from_raw (data : bytes) (sw fr ch : Z) : result AudioSegment :=
  if (sw =? 3) && (len data =? 0) then Raise IndexError
  else Ok (raw_segment data sw fr ch).

(** What the decoder takes from its collaborators.  pydub converts
    milliseconds to frames in floating point and may pad the result with
    silence, so the bytes of [seg[:ms]] are left to the library; so are the
    codecs behind [from_file], wavio and the file system. *)
Class External : Type := {
  (** the raw data of [seg[:ms]], or the exception the slice raises *)
  slice_data : AudioSegment -> Z -> result bytes;
  (** [AudioSegment.from_file(file_name)] *)
  from_file : string -> result AudioSegment;
  (** [wavio.readwav]: the sample array, frames by channels *)
  readwav_file : string -> result (list (list Z));
  readwav_buffer : bytes -> result (list (list Z));
  (** the content of a file, [None] when it cannot be opened *)
  file_content : string -> option bytes
}.

Section Decoder.
Context {E : External}.

(** [seg[:ms]]: pydub spawns a segment with the same parameters. *)
Definition segment_slice (seg : AudioSegment) (ms : Z) : result AudioSegment :=
  d <- slice_data seg ms ;;
  Ok (mkSegment d (sample_width seg) (frame_rate seg) (channels seg)
                (frame_width seg)).

(** [if limit:] is false for [None] and for [0]. *)
Definition truthy (limit : option Z) : bool :=
  match limit with
  | None => false
  | Some n => negb (n =? 0)
  end.

Definition apply_limit (seg : AudioSegment) (limit : option Z)
  : result AudioSegment :=
  match limit with
  | Some n => if truthy limit then segment_slice seg (n * 1000) else Ok seg
  | None => Ok seg
  end.

(** One little-endian signed 16-bit sample. *)
Definition int16_le (lo hi : byte) : Z :=
  let u := byte_val lo + 256 * byte_val hi in
  if u <? 32768 then u else u - 65536.

Fixpoint int16_samples (data : bytes) : list Z :=
  match data with
  | lo :: hi :: rest => int16_le lo hi :: int16_samples rest
  | _ => []
  end.

(** [np.frombuffer(data, np.int16)] and [np.fromstring(data, np.int16)]:
    the length must be a multiple of the item size. *)
Definition np_int16 (data : bytes) : result (list Z) :=
  if len data mod 2 =? 0 then Ok (int16_samples data) else Raise ValueError.

Definition py_range (n : Z) : list Z := map Z.of_nat (seq 0 (Z.to_nat n)).

(** [for chn in range(audiofile.channels):
       channels.append(data[chn::audiofile.channels])] *)
Definition split_channels (seg : AudioSegment) (data : list Z) : list (list Z) :=
  map (fun chn => py_stride data chn (channels seg)) (py_range (channels seg)).

(** The [except audioop.error] branch.  Slicing, transposing and
    converting the array raise nothing, and the [return] statement then
    reads [frame_rate] from the array, which has no such attribute. *)
Definition wavio_fallback {A} (arr : result (list (list Z))) : result A :=
  _ <- arr ;; Raise AttributeError.

Definition decoded : Type := list (list Z) * Z * string.

Definition unique_hash (fuel : nat) (file_path : string) (block_size : Z)
  : result (option string) :=
  match file_content file_path with
  | None => Raise LibraryError
  | Some content =>
      match file_hash_loop fuel SHA1.new content block_size with
      | None => Ok None
      | Some (Ok s) => Ok (Some (upper (SHA1.hexdigest s)))
      | Some (Raise e) => Raise e
      end
  end.

Definition unique_hash_default (file_path : string) : result string :=
  match file_content file_path with
  | None => Raise LibraryError
  | Some content =>
      match file_hash_loop (S (length content)) SHA1.new content
                           default_block_size with
      | Some (Ok s) => Ok (upper (SHA1.hexdigest s))
      | Some (Raise e) => Raise e
      | None => Ok EmptyString
      end
  end.

(** The [try] block of [read_from_buffer]: the segment that is converted
    and its channels. *)
Definition pad_odd (seg : AudioSegment) (sw fr ch : Z) : result AudioSegment :=
  if negb (len (raw_data seg) mod 2 =? 0)
  then from_raw (raw_data seg ++ [x00]) sw fr ch
  else Ok seg.

Definition read_from_buffer_try (buffer : bytes) (fr sw ch : Z)
           (limit : option Z) : result (list (list Z) * AudioSegment) :=
  audiofile <- from_raw buffer sw fr ch ;;
  audiofile <- apply_limit audiofile limit ;;
  audiofile <- pad_odd audiofile sw fr ch ;;
  data <- np_int16 (raw_data audiofile) ;;
  Ok (split_channels audiofile data, audiofile).

Definition read_from_buffer (buffer : bytes) (fr sw ch : Z)
           (limit : option Z) : result decoded :=
  match read_from_buffer_try buffer fr sw ch limit with
  | Ok (chans, audiofile) =>
      Ok (chans, frame_rate audiofile, unique_bytes_hash_default buffer)
  | Raise AudioopError => wavio_fallback (readwav_buffer buffer)
  | Raise e => Raise e
  end.

Definition read_try (file_name : string) (limit : option Z)
  : result (list (list Z) * AudioSegment) :=
  audiofile <- from_file file_name ;;
  audiofile <- apply_limit audiofile limit ;;
  data <- np_int16 (raw_data audiofile) ;;
  Ok (split_channels audiofile data, audiofile).

Definition read (file_name : string) (limit : option Z) : result decoded :=
  match read_try file_name limit with
  | Ok (chans, audiofile) =>
      h <- unique_hash_default file_name ;;
      Ok (chans, frame_rate audiofile, h)
  | Raise AudioopError => wavio_fallback (readwav_file file_name)
  | Raise e => Raise e
  end.

End Decoder.

(* ================================================================== *)
(** ** Calling a Python function *)

Inductive pyval : Type :=
| PyNone
| PyInt (z : Z)
| PyBytes (b : bytes).

(** Positional arguments against a parameter list; [Some v] is a parameter
    with default [v], [None] one without. *)
Fixpoint bind_positional (params : list (option pyval)) (args : list pyval)
  : result (list pyval) :=
  match params, args with
  | [], [] => Ok []
  | [], _ :: _ => Raise (TypeError "too many positional arguments")
  | _ :: ps, a :: args' => vs <- bind_positional ps args' ;; Ok (a :: vs)
  | Some v :: ps, [] => vs <- bind_positional ps [] ;; Ok (v :: vs)
  | None :: _, [] => Raise (TypeError "missing required positional arguments")
  end.

Definition pyval_of_limit (limit : option Z) : pyval :=
  match limit with
  | None => PyNone
  | Some n => PyInt n
  end.

(** [def read_from_buffer(buffer, frame_rate, sample_width, audio_channels,
    limit=None)] as a callable. *)
Definition read_from_buffer_params : list (option pyval) :=
  [None; None; None; None; Some PyNone].

Definition read_from_buffer_call {E : External} (args : list pyval)
  : result decoded :=
  vs <- bind_positional read_from_buffer_params args ;;
  match vs with
  | [PyBytes buffer; PyInt fr; PyInt sw; PyInt ch; PyNone] =>
      read_from_buffer buffer fr sw ch None
  | [PyBytes buffer; PyInt fr; PyInt sw; PyInt ch; PyInt n] =>
      read_from_buffer buffer fr sw ch (Some n)
  | _ => Raise (TypeError "argument of the wrong type")
  end.

(* ================================================================== *)
(** ** dejavu/logic/recognizer/buffer_recognizer.py *)

(** The base class, the settings and the clock are not part of these
    sources: [_recognize] is [BaseRecognizer._recognize], the five keys are
    the constants of [dejavu.config.settings], and [time] reads the clock of
    a world that every call threads through. *)
Class Recognition : Type := {
  world : Type;
  seconds : Type;
  elapsed : seconds -> seconds -> seconds;      (* [t1 - t0] *)
  time : world -> seconds * world;
  matches : Type;
  _recognize : list (list Z) -> world
               -> result (matches * seconds * seconds * seconds) * world;
  TOTAL_TIME : string;
  FINGERPRINT_TIME : string;
  QUERY_TIME : string;
  ALIGN_TIME : string;
  RESULTS : string
}.

Section Recognizer.
Context {E : External} {R : Recognition}.

Inductive entry : Type :=
| Seconds (t : seconds)
| Matches (m : matches).

(** A Python dict in insertion order. *)
Definition results : Type := list (string * entry).

Record BufferRecognizer : Type := mkRecognizer {
  dejavu_limit : option Z;      (* [self.dejavu.limit] *)
  Fs : option Z
}.

Definition recognize_buffer (self : BufferRecognizer) (content : bytes)
           (w : world) : result results * BufferRecognizer * world :=
  match read_from_buffer_call
          [PyBytes content; pyval_of_limit (dejavu_limit self)] with
  | Raise e => (Raise e, self, w)
  | Ok (chans, fs, _) =>
      let self := mkRecognizer (dejavu_limit self) (Some fs) in
      let (t0, w) := time w in
      match _recognize chans w with
      | (Raise e, w) => (Raise e, self, w)
      | (Ok (m, fingerprint_time, query_time, align_time), w) =>
          let (t1, w) := time w in
          (Ok [(TOTAL_TIME, Seconds (elapsed t1 t0));
               (FINGERPRINT_TIME, Seconds fingerprint_time);
               (QUERY_TIME, Seconds query_time);
               (ALIGN_TIME, Seconds align_time);
               (RESULTS, Matches m)], self, w)
      end
  end.

(** [def recognize(self, content)], called with the positional arguments
    the caller hands over ([buffer_script.py] passes the content, the
    sample rate, the sample width and the channel count). *)
Definition recognize (self : BufferRecognizer) (args : list pyval)
           (w : world) : result results * BufferRecognizer * world :=
  match bind_positional [None] args with
  | Raise e => (Raise e, self, w)
  | Ok [PyBytes content] => recognize_buffer self content w
  | Ok _ => (Raise (TypeError "argument of the wrong type"), self, w)
  end.

End Recognizer.

(* ================================================================== *)
(** ** dejavu/database_handler/cockroach_database.py

    The two tables as lists of rows in insertion order; the timestamp
    columns are left out.  A statement that raises leaves the store as it
    was: the cursor's [__exit__] commits a failed transaction, which rolls
    it back. *)

Definition uuid : Type := string.

Record song_row : Type := mkSong {
  song_id : uuid;
  song_name : string;
  fingerprinted : Z;
  file_sha1 : bytes;
  total_hashes : Z;
  song_type : option string
}.

Record fingerprint_row : Type := mkFingerprint {
  fp_hash : bytes;
  fp_song_id : uuid;
  fp_offset : Z
}.

Record db : Type := mkDb {
  songs : list song_row;
  fingerprints : list fingerprint_row
}.

Definition bytes_eqb (a b : bytes) : bool :=
  if list_eq_dec Byte.byte_eq_dec a b then true else false.

Definition is_int4 (z : Z) : bool := (- 2 ^ 31 <=? z) && (z <? 2 ^ 31).

Definition song_exists (ss : list song_row) (id : uuid) : bool :=
  existsb (fun s => String.eqb (song_id s) id) ss.

(** The two uniqueness constraints of CREATE_FINGERPRINTS_TABLE:
    [hash] is the PRIMARY KEY, and (song_id, offset, hash) is UNIQUE. *)
Definition pk_conflict (t : list fingerprint_row) (r : fingerprint_row) : bool :=
  existsb (fun r' => bytes_eqb (fp_hash r') (fp_hash r)) t.

Definition uq_conflict (t : list fingerprint_row) (r : fingerprint_row) : bool :=
  existsb (fun r' => String.eqb (fp_song_id r') (fp_song_id r)
                     && (fp_offset r' =? fp_offset r)
                     && bytes_eqb (fp_hash r') (fp_hash r)) t.

Definition conflict (t : list fingerprint_row) (r : fingerprint_row) : bool :=
  pk_conflict t r || uq_conflict t r.

(** One tuple of the VALUES list, through the template
    [(%s, decode(%s, 'hex'), %s)] and the column types. *)
Definition fingerprint_value (v : uuid * string * Z) : result fingerprint_row :=
  let '(sid, hsh, offset) := v in
  match hex_decode hsh with
  | None => Raise DataError
  | Some h => if is_int4 offset then Ok (mkFingerprint h sid offset)
              else Raise DataError
  end.

(** INSERT ... ON CONFLICT DO NOTHING, row by row: a row in conflict with a
    stored row, or with a row this statement has already inserted, is
    skipped; a row that is inserted must satisfy the foreign key. *)
Fixpoint insert_rows (ss : list song_row) (t : list fingerprint_row)
         (rows : list fingerprint_row) : result (list fingerprint_row) :=
  match rows with
  | [] => Ok t
  | r :: rows' =>
      if conflict t r then insert_rows ss t rows'
      else if song_exists ss (fp_song_id r) then insert_rows ss (t ++ [r]) rows'
      else Raise IntegrityError
  end.

Definition INSERT_FINGERPRINT (d : db) (values : list (uuid * string * Z))
  : result db :=
  rows <- mapM fingerprint_value values ;;
  t <- insert_rows (songs d) (fingerprints d) rows ;;
  Ok (mkDb (songs d) t).

(** [insert_hashes(song_id, hashes)]; [batch_size] is not used. *)
Definition insert_hashes (d : db) (sid : uuid) (hashes : list (string * Z))
  : result db :=
  let values := map (fun '(hsh, offset) => (sid, hsh, offset)) hashes in
  INSERT_FINGERPRINT d values.

(** A value for the nullable VARCHAR(250) column of the song type. *)
Definition type_fits (type : option string) : bool :=
  match type with
  | None => true
  | Some t => Z.of_nat (String.length t) <=? 250
  end.

(** INSERT_SONG; [new_id] is the value [uuid_generate_v4()] draws. *)
Definition INSERT_SONG (d : db) (new_id : uuid) (name file_hash : string)
           (total : Z) (type : option string) : result (uuid * db) :=
  match hex_decode file_hash with
  | None => Raise DataError
  | Some sha =>
      if negb ((Z.of_nat (String.length name) <=? 250) && type_fits type
               && is_int4 total)
      then Raise DataError
      else if song_exists (songs d) new_id then Raise IntegrityError
      else Ok (new_id,
               mkDb (songs d ++ [mkSong new_id name 0 sha total type])
                    (fingerprints d))
  end.

Definition insert_song (d : db) (new_id : uuid) (name file_hash : string)
           (total : Z) (type : option string) : result (uuid * db) :=
  INSERT_SONG d new_id name file_hash total type.

Definition UPDATE_SONG_FINGERPRINTED (d : db) (id : uuid) : db :=
  mkDb (map (fun s => if String.eqb (song_id s) id
                      then mkSong (song_id s) (song_name s) 1 (file_sha1 s)
                                  (total_hashes s) (song_type s)
                      else s) (songs d))
       (fingerprints d).

(** DELETE FROM songs WHERE [keep] fails, with ON DELETE CASCADE on the
    fingerprints that reference a deleted song. *)
Definition delete_where (d : db) (doomed : song_row -> bool) : db :=
  let gone := map song_id (filter doomed (songs d)) in
  mkDb (filter (fun s => negb (doomed s)) (songs d))
       (filter (fun r => negb (existsb (String.eqb (fp_song_id r)) gone))
               (fingerprints d)).

Definition DELETE_UNFINGERPRINTED (d : db) : db :=
  delete_where d (fun s => fingerprinted s =? 0).

Definition DELETE_SONGS (d : db) (ids : list uuid) : db :=
  delete_where d (fun s => existsb (String.eqb (song_id s)) ids).

(** SELECT_MULTIPLE with the IN list built from IN_MATCH, one
    [decode(%s, 'hex')] per hash. *)
Definition query_row : Type := string * uuid * Z.

Definition select_row (r : fingerprint_row) : query_row :=
  (upper (hex_encode false (fp_hash r)), fp_song_id r, fp_offset r).

Definition decode_hash (hsh : string) : result bytes :=
  match hex_decode hsh with
  | Some h => Ok h
  | None => Raise DataError
  end.

(** [hash IN (hs)] *)
Definition hash_in (hs : list bytes) (r : fingerprint_row) : bool :=
  existsb (bytes_eqb (fp_hash r)) hs.

Definition SELECT_MULTIPLE (d : db) (hashes : list string)
  : result (list query_row) :=
  hs <- mapM decode_hash hashes ;;
  Ok (map select_row (filter (hash_in hs) (fingerprints d))).

(** One SELECT_MULTIPLE per chunk, the rows concatenated. *)
Definition query_chunks (d : db) (chunks : list (list string))
  : result (list query_row) :=
  rs <- mapM (SELECT_MULTIPLE d) chunks ;;
  Ok (concat rs).

Definition SELECT_NUM_FINGERPRINTS (d : db) : Z := len (fingerprints d).

(** No fingerprint without its song. *)
Definition no_orphans (d : db) : Prop :=
  forall r, In r (fingerprints d) -> song_exists (songs d) (fp_song_id r) = true.

(** No two stored fingerprints agree on (song_id, hash, offset). *)
Definition triple_unique (t : list fingerprint_row) : Prop :=
  NoDup (map (fun r => (fp_song_id r, fp_hash r, fp_offset r)) t).

(** No two stored fingerprints agree on the hash. *)
Definition hash_unique (t : list fingerprint_row) : Prop :=
  NoDup (map fp_hash t).

(** The stored rows that the lookups of decoded chunks select, chunk after
    chunk. *)
Fixpoint chunk_rows (t : list fingerprint_row) (hss : list (list bytes))
  : list fingerprint_row :=
  match hss with
  | [] => []
  | hs :: hss' => filter (hash_in hs) t ++ chunk_rows t hss'
  end.

(** The store after a statement: a statement that raises changes nothing. *)
Definition store_after (d : db) (r : result db) : db :=
  match r with
  | Ok d' => d'
  | Raise _ => d
  end.

(** Channels that hold no more than [n] seconds of 16-bit audio at
    [rate] frames per second: at most [n * rate] samples each. *)
Definition within_seconds (rate n : Z) (chans : list (list Z)) : Prop :=
  Forall (fun chan => len chan <= n * rate) chans.

Definition is_int16 (z : Z) : Prop := - 32768 <= z <= 32767.

(** The raw bytes of the first [n] seconds of a segment. *)
Definition first_seconds (seg : AudioSegment) (n : Z) : bytes :=
  firstn (Z.to_nat (n * frame_rate seg * frame_width seg)) (raw_data seg).

(** What pydub documents for [seg[:ms]] with [ms] not negative: the first
    [ms] milliseconds.  The slice keeps the raw data from its start up to
    some byte, counts no more than [ms * frame_rate / 1000] frames, and
    where the data ends before the frames it counted it completes them
    with silent ones. *)
Definition slice_keeps_start (E : External) : Prop :=
  forall (seg : AudioSegment) (ms : Z) (d : bytes),
    0 <= ms ->
    @slice_data E seg ms = Ok d ->
    exists k silent : nat,
      d = firstn k (raw_data seg) ++ repeat x00 silent
      /\ (length d
          <= Z.to_nat (ms * frame_rate seg / 1000 * frame_width seg))%nat
      /\ (silent <> 0%nat -> (length (raw_data seg) <= k)%nat).

(** Raw data drawn from the first [n] seconds of [whole] only: a prefix of
    them and then silence, no longer than [n] seconds of frames, and no
    silence at all when [whole] holds [n] seconds or more. *)
Definition from_first_seconds (whole : AudioSegment) (n : Z) (d : bytes)
  : Prop :=
  exists k silent : nat,
    d = firstn k (first_seconds whole n) ++ repeat x00 silent
    /\ (length d
        <= Z.to_nat (n * frame_rate whole * frame_width whole))%nat
    /\ ((Z.to_nat (n * frame_rate whole * frame_width whole)
         <= length (raw_data whole))%nat -> silent = 0%nat).

(* ================================================================== *)
(** ** Hosts to run the model on

    [exact_host] slices in exact integer arithmetic: [seg[:ms]] keeps the
    first [ms * frame_rate / 1000] frames.  It holds one two-channel file
    and no wav reader. *)

Definition exact_slice (seg : AudioSegment) (ms : Z) : result bytes :=
  Ok (firstn (Z.to_nat (ms * frame_rate seg / 1000 * frame_width seg))
             (raw_data seg)).

Definition example_pcm : bytes := [x01; x00; x02; x00; xff; xff; x00; x80].

Definition example_file (path : string) : option bytes :=
  if String.eqb path "a.raw" then Some example_pcm else None.

#[local] Instance exact_host : External := {|
  slice_data := exact_slice;
  from_file := fun path =>
    match example_file path with
    | Some d => Ok (raw_segment d 2 2 2)
    | None => Raise LibraryError
    end;
  readwav_file := fun _ => Raise LibraryError;
  readwav_buffer := fun _ => Raise LibraryError;
  file_content := example_file
|}.

(** A recognizer core that finds nothing, on a clock that ticks once per
    reading. *)
#[local] Instance idle_recognition : Recognition := {|
  world := Z;
  seconds := Z;
  elapsed := fun t1 t0 => t1 - t0;
  time := fun w => (w, w + 1);
  matches := list string;
  _recognize := fun _ w => (Ok ([], 0, 0, 0), w);
  TOTAL_TIME := "total_time";
  FINGERPRINT_TIME := "fingerprint_time";
  QUERY_TIME := "query_time";
  ALIGN_TIME := "align_time";
  RESULTS := "results"
|}.

(** A store with two songs and no fingerprints. *)
Definition two_songs : db :=
  mkDb [mkSong "A"%string "first" 1 [] 2 None;
        mkSong "B"%string "second" 0 [] 1 None] [].

(* ================================================================== *)
(** ** decoder.py: the name of an audio file

    [os.path.basename] and [os.path.splitext] of posixpath, on the
    characters of the path. *)

(** [p.rfind(c)]: the last position of [c], or -1. *)
Fixpoint rfind_from (c : ascii) (p : list ascii) (i last : Z) : Z :=
  match p with
  | [] => last
  | a :: p' => rfind_from c p' (i + 1) (if Ascii.eqb a c then i else last)
  end.

Definition rfind (p : list ascii) (c : ascii) : Z := rfind_from c p 0 (-1).

(** [i = p.rfind('/') + 1; return p[i:]] *)
Definition basename (p : list ascii) : list ascii :=
  skipn (Z.to_nat (rfind p "/"%char + 1)) p.

(** The extension starts at the last dot, when that dot comes after the
    last slash and some character between the two is not a dot. *)
Definition splitext (p : list ascii) : list ascii * list ascii :=
  let sepIndex := rfind p "/"%char in
  let dotIndex := rfind p "."%char in
  if (sepIndex <? dotIndex)
     && existsb (fun a => negb (Ascii.eqb a "."%char))
                (py_slice p (sepIndex + 1) dotIndex)
  then (firstn (Z.to_nat dotIndex) p, skipn (Z.to_nat dotIndex) p)
  else (p, []).

Definition get_audio_name_from_path (file_path : string) : string :=
  string_of_list_ascii
    (fst (splitext (basename (list_ascii_of_string file_path)))).

(** Hosts with a one-byte-per-frame file of three bytes: one that slices
    exactly, one whose slices raise [audioop.error]. *)
Definition odd_pcm : bytes := [x01; x02; x03].

Definition odd_host : External := {|
  slice_data := exact_slice;
  from_file := fun _ => Ok (raw_segment odd_pcm 1 8000 1);
  readwav_file := fun _ => Raise LibraryError;
  readwav_buffer := fun _ => Ok [[1]; [2]; [3]];
  file_content := fun _ => Some odd_pcm
|}.

Definition broken_slice_host : External := {|
  slice_data := fun _ _ => Raise AudioopError;
  from_file := fun _ => Ok (raw_segment odd_pcm 1 8000 1);
  readwav_file := fun _ => Raise LibraryError;
  readwav_buffer := fun _ => Ok [[1]; [2]; [3]];
  file_content := fun _ => Some odd_pcm
|}.

(* ================================================================== *)
(** ** cockroach_database.py: the other statements *)

(** SELECT: the (song_id, offset) rows of one hash. *)
Definition SELECT (d : db) (hsh : string) : result (list (uuid * Z)) :=
  h <- decode_hash hsh ;;
  Ok (map (fun r => (fp_song_id r, fp_offset r))
          (filter (fun r => bytes_eqb (fp_hash r) h) (fingerprints d))).

Definition SELECT_ALL (d : db) : list (uuid * Z) :=
  map (fun r => (fp_song_id r, fp_offset r)) (fingerprints d).

(** SELECT_SONG: name, upper-case hex of the file hash, type and total of
    the song with the id. *)
Definition SELECT_SONG (d : db) (id : uuid)
  : list (string * string * option string * Z) :=
  map (fun s => (song_name s, upper (hex_encode false (file_sha1 s)),
                 song_type s, total_hashes s))
      (filter (fun s => String.eqb (song_id s) id) (songs d)).

(** SELECT_SONGS, without the creation date: the fingerprinted songs. *)
Definition SELECT_SONGS (d : db)
  : list (uuid * string * option string * string * Z) :=
  map (fun s => (song_id s, song_name s, song_type s,
                 upper (hex_encode false (file_sha1 s)), total_hashes s))
      (filter (fun s => fingerprinted s =? 1) (songs d)).

Definition SELECT_UNIQUE_SONG_IDS (d : db) : Z :=
  len (filter (fun s => fingerprinted s =? 1) (songs d)).

(** The primary key of the songs table. *)
Definition song_ids_unique (d : db) : Prop := NoDup (map song_id (songs d)).

(* ================================================================== *)
(** ** cockroach_database.py: the Cursor class

    A connection is a number; the server counts the connections it has
    handed out, and remembers which are open and which transactions were
    committed.  [queue.Queue] is a bounded list: [None] stands for
    [queue.Empty] and [queue.Full]. *)













(* ================================================================== *)
(** * Properties *)

(** ** Lists and slices *)

Lemma len_nonneg {A} (l : list A) : 0 <= len l.
Proof. unfold len. lia. Qed.

Lemma firstn_min_length {A} (n : nat) (l : list A) :
  firstn (Nat.min n (length l)) l = firstn n l.
Proof.
  destruct (Nat.le_ge_cases n (length l)) as [H | H].
  - now rewrite Nat.min_l.
  - rewrite Nat.min_r by exact H.
    now rewrite !firstn_all2 by lia.
Qed.

(** For a position inside the sequence and a positive width, the Python
    slice is the next [width] elements. *)
Lemma py_slice_forward {A} (l : list A) (i w : Z) :
  0 <= i < len l -> 0 < w ->
  py_slice l i (i + w) = firstn (Z.to_nat w) (skipn (Z.to_nat i) l).
Proof.
  intros Hi Hw. unfold py_slice, py_clamp.
  destruct (Z.ltb_spec i 0); [lia |].
  destruct (Z.ltb_spec (i + w) 0); [lia |].
  rewrite (Z.min_l i) by lia.
  rewrite <- (firstn_min_length (Z.to_nat w)).
  f_equal. rewrite length_skipn. unfold len in *. lia.
Qed.

(** ** The content hash *)

Lemma sha1_update_update (s : SHA1.t) (a b : bytes) :
  SHA1.update (SHA1.update s a) b = SHA1.update s (a ++ b).
Proof. unfold SHA1.update. simpl. now rewrite app_assoc. Qed.

Lemma sha1_update_nil (s : SHA1.t) : SHA1.update s [] = s.
Proof. destruct s. unfold SHA1.update. simpl. now rewrite app_nil_r. Qed.

(** From any position, with enough fuel, the loop feeds the hash object
    exactly the rest of the buffer. *)
Lemma hash_loop_rest (d : bytes) (bs : Z) :
  0 < bs ->
  forall (fuel : nat) (s : SHA1.t) (idx : Z),
    0 <= idx ->
    (Z.to_nat (len d - idx) < fuel)%nat ->
    hash_loop fuel s d idx bs = Some (SHA1.update s (skipn (Z.to_nat idx) d)).
Proof.
  intros Hbs. induction fuel as [| f IH]; intros s idx Hidx Hfuel; [lia |].
  simpl. destruct (Z.ltb_spec idx (len d)) as [Hlt | Hge].
  - rewrite IH by lia.
    rewrite sha1_update_update. do 2 f_equal.
    rewrite py_slice_forward by lia.
    replace (Z.to_nat (idx + bs)) with (Z.to_nat bs + Z.to_nat idx)%nat by lia.
    rewrite <- skipn_skipn.
    apply firstn_skipn.
  - rewrite skipn_all2 by (unfold len in *; lia).
    now rewrite sha1_update_nil.
Qed.

Lemma unique_bytes_hash_digest (d : bytes) (bs : Z) (fuel : nat) :
  0 < bs -> (length d < fuel)%nat ->
  unique_bytes_hash fuel d bs
  = Some (upper (SHA1.hexdigest (SHA1.update SHA1.new d))).
Proof.
  intros Hbs Hfuel. unfold unique_bytes_hash.
  rewrite (hash_loop_rest d bs Hbs fuel SHA1.new 0) by (unfold len; lia).
  reflexivity.
Qed.

(** The decoder's call with the default block size never runs out of fuel. *)
Lemma unique_bytes_hash_default_eq (d : bytes) :
  unique_bytes_hash_default d
  = upper (SHA1.hexdigest (SHA1.update SHA1.new d)).
Proof.
  unfold unique_bytes_hash_default.
  rewrite unique_bytes_hash_digest; [reflexivity | | lia].
  unfold default_block_size. lia.
Qed.

(** C10.  For every byte array [d] and every positive block size,
    [unique_bytes_hash] ends (any fuel above [len(d)] is enough) and returns
    the upper-case hexadecimal SHA-1 digest of the whole of [d]; so any two
    positive block sizes give the same hash for the same data. *)
Theorem unique_bytes_hash_block_size_independent :
  forall (d : bytes) (block_size : Z) (fuel : nat),
    0 < block_size -> (length d < fuel)%nat ->
    unique_bytes_hash fuel d block_size
    = Some (upper (SHA1.hexdigest (SHA1.update SHA1.new d)))
    /\ forall (block_size' : Z) (fuel' : nat),
         0 < block_size' -> (length d < fuel')%nat ->
         unique_bytes_hash fuel' d block_size'
         = unique_bytes_hash fuel d block_size.
Proof.
  intros d bs fuel Hbs Hfuel. split.
  - now apply unique_bytes_hash_digest.
  - intros bs' fuel' Hbs' Hfuel'.
    now rewrite !unique_bytes_hash_digest.
Qed.

Lemma unique_bytes_hash_block_size_independent_witness :
  unique_bytes_hash 4 [x61; x62; x63] 2
  = Some (upper (SHA1.hexdigest (SHA1.update SHA1.new [x61; x62; x63])))
  /\ forall (block_size' : Z) (fuel' : nat),
       0 < block_size' -> (length [x61; x62; x63] < fuel')%nat ->
       unique_bytes_hash fuel' [x61; x62; x63] block_size'
       = unique_bytes_hash 4 [x61; x62; x63] 2.
Proof.
  apply (unique_bytes_hash_block_size_independent [x61; x62; x63] 2 4).
  - reflexivity.
  - simpl. apply le_n.
Defined.

Example unique_bytes_hash_abc :
  unique_bytes_hash 4 [x61; x62; x63] 2
  = Some "A9993E364706816ABA3E25717850C26C9CD0D89D"%string.
Proof. vm_compute. reflexivity. Qed.

(** A block size of zero never advances: the loop outlives any fuel. *)
Example unique_bytes_hash_zero_block :
  forall fuel, unique_bytes_hash fuel [x61] 0 = None.
Proof.
  intros fuel. unfold unique_bytes_hash.
  assert (H : forall f s, hash_loop f s [x61] 0 0 = None).
  { induction f as [| f IH]; intros s; [reflexivity |]. simpl. apply IH. }
  now rewrite H.
Qed.

(** ** The buffer recognizer *)

(** Two positional arguments never bind the four parameters without a
    default. *)
Lemma read_from_buffer_call_two_args {E : External} (a b : pyval) :
  read_from_buffer_call [a; b]
  = Raise (TypeError "missing required positional arguments").
Proof. reflexivity. Qed.

(** C2.  [recognize_buffer] hands [read_from_buffer] the content and
    [self.dejavu.limit] only: the call raises TypeError for every buffer,
    before anything is decoded, and no sample rate, sample width or channel
    count of the caller reaches the decoder.  [recognize] itself takes the
    content alone, so the four arguments of [buffer_script.py] are refused
    as well. *)
Theorem recognize_buffer_omits_audio_parameters :
  forall (E : External) (R : Recognition)
         (self : BufferRecognizer) (content : bytes) (w : world),
    recognize_buffer self content w
    = (Raise (TypeError "missing required positional arguments"), self, w)
    /\ forall fr sw ch : Z,
         recognize self [PyBytes content; PyInt fr; PyInt sw; PyInt ch] w
         = (Raise (TypeError "too many positional arguments"), self, w).
Proof.
  intros E R self content w. split.
  - unfold recognize_buffer.
    now rewrite read_from_buffer_call_two_args.
  - intros fr sw ch. reflexivity.
Qed.

(** C5.  Whatever arguments it is called with, [recognize] raises: no
    result with the four timings and the match list is ever returned, and
    the recognizer and the clock are left as they were. *)
Theorem recognize_never_returns_results :
  forall (E : External) (R : Recognition)
         (self : BufferRecognizer) (args : list pyval) (w : world),
    exists e : exn, recognize self args w = (Raise e, self, w).
Proof.
  intros E R self args w. unfold recognize.
  destruct args as [| a [| b rest]]; simpl.
  - eauto.
  - destruct a; eauto.
    unfold recognize_buffer. rewrite read_from_buffer_call_two_args. eauto.
  - eauto.
Qed.

(** The script's call, on a host where the decoder itself works. *)
Example recognize_script_call :
  recognize (mkRecognizer None None)
            [PyBytes example_pcm; PyInt 48000; PyInt 1; PyInt 2] 0
  = (Raise (TypeError "too many positional arguments"),
     mkRecognizer None None, 0).
Proof. reflexivity. Qed.

Example recognize_content_only :
  recognize (mkRecognizer None None) [PyBytes example_pcm] 0
  = (Raise (TypeError "missing required positional arguments"),
     mkRecognizer None None, 0).
Proof. reflexivity. Qed.

(** The same buffer decodes once the three parameters are passed. *)
Example read_from_buffer_call_five_args :
  read_from_buffer_call
    [PyBytes example_pcm; PyInt 48000; PyInt 2; PyInt 2; PyNone]
  = Ok ([[1; -1]; [2; -32768]], 48000,
        unique_bytes_hash_default example_pcm).
Proof. reflexivity. Qed.

(** ** The decoder *)

Lemma take_every_nth {A} (step : nat) :
  (0 < step)%nat ->
  forall (fuel : nat) (l : list A) (j : nat),
    (length l <= fuel)%nat ->
    nth_error (take_every step l fuel) j = nth_error l (j * step).
Proof.
  intros Hstep. induction fuel as [| f IH]; intros l j Hlen.
  - destruct l; [| simpl in Hlen; lia].
    simpl. now rewrite !nth_error_nil.
  - destruct l as [| a l']; [simpl; now rewrite !nth_error_nil |].
    destruct j as [| j'].
    + reflexivity.
    + cbn [take_every nth_error].
      change (nth_error (take_every step (skipn step (a :: l')) f) j'
              = nth_error (a :: l') (S j' * step)).
      rewrite IH.
      * rewrite nth_error_skipn. f_equal; lia.
      * rewrite length_skipn. lia.
Qed.

(** [data[start::step]] holds the elements at start, start+step, ... *)
Lemma py_stride_nth {A} (l : list A) (start step : Z) (j : nat) :
  0 < step ->
  nth_error (py_stride l start step) j
  = nth_error l (Z.to_nat start + j * Z.to_nat step).
Proof.
  intros Hstep. unfold py_stride.
  rewrite take_every_nth.
  - now rewrite nth_error_skipn.
  - lia.
  - rewrite length_skipn. lia.
Qed.

Lemma split_channels_length (seg : AudioSegment) (data : list Z) :
  length (split_channels seg data) = Z.to_nat (channels seg).
Proof.
  unfold split_channels, py_range. now rewrite !length_map, length_seq.
Qed.

(** Channel [k] is the subsequence of the stream at k, k+c, k+2c, ... *)
Lemma split_channels_nth (seg : AudioSegment) (data : list Z)
      (k : nat) (chan : list Z) :
  nth_error (split_channels seg data) k = Some chan ->
  forall j : nat,
    nth_error chan j = nth_error data (k + j * Z.to_nat (channels seg)).
Proof.
  unfold split_channels, py_range. intros H j.
  rewrite !nth_error_map, nth_error_seq in H.
  destruct (Nat.ltb_spec k (Z.to_nat (channels seg))) as [Hk | Hk];
    [| discriminate].
  simpl in H. injection H as <-.
  rewrite py_stride_nth by lia.
  now rewrite Nat2Z.id.
Qed.

Lemma byte_val_range (b : byte) : 0 <= byte_val b < 256.
Proof.
  unfold byte_val. pose proof (Byte.to_N_bounded b) as H. lia.
Qed.

Lemma int16_le_range (lo hi : byte) : is_int16 (int16_le lo hi).
Proof.
  unfold is_int16, int16_le.
  pose proof (byte_val_range lo). pose proof (byte_val_range hi).
  destruct (Z.ltb_spec (byte_val lo + 256 * byte_val hi) 32768); lia.
Qed.

(** Induction two bytes at a time. *)
Lemma pairs_ind {A} (P : list A -> Prop) :
  P [] -> (forall a, P [a]) ->
  (forall a b l, P l -> P (a :: b :: l)) ->
  forall l, P l.
Proof.
  intros H0 H1 H2 l.
  assert (H : P l /\ forall a, P (a :: l)).
  { induction l as [| b l [IH1 IH2]]; split; auto. }
  apply H.
Qed.

Lemma int16_samples_range (data : bytes) : Forall is_int16 (int16_samples data).
Proof.
  induction data as [| a | lo hi rest IH] using pairs_ind; simpl; auto.
  constructor; [apply int16_le_range | exact IH].
Qed.

(** Induction three bytes at a time. *)
Lemma triples_ind {A} (P : list A -> Prop) :
  P [] -> (forall a, P [a]) -> (forall a b, P [a; b]) ->
  (forall a b c l, P l -> P (a :: b :: c :: l)) ->
  forall l, P l.
Proof.
  intros H0 H1 H2 H3 l.
  assert (H : P l /\ (forall a, P (a :: l)) /\ forall a b, P (a :: b :: l)).
  { induction l as [| c l (IH1 & IH2 & IH3)]; repeat split; auto. }
  apply H.
Qed.

Lemma widen_24_even (data : bytes) : len (widen_24 data) mod 2 = 0.
Proof.
  induction data as [| a | a b | a b c rest IH] using triples_ind;
    try reflexivity.
  cbn [widen_24]. unfold len in *. cbn [length].
  replace (Z.of_nat (S (S (S (S (length (widen_24 rest)))))))
    with (Z.of_nat (length (widen_24 rest)) + 2 * 2) by lia.
  now rewrite Z_mod_plus_full.
Qed.

Lemma raw_segment_params (data : bytes) (sw fr ch : Z) :
  channels (raw_segment data sw fr ch) = ch
  /\ frame_rate (raw_segment data sw fr ch) = fr.
Proof. unfold raw_segment. destruct (sw =? 3); simpl; auto. Qed.

Lemma raw_segment_even (data : bytes) (sw fr ch : Z) :
  len data mod 2 = 0 -> len (raw_data (raw_segment data sw fr ch)) mod 2 = 0.
Proof.
  intros He. unfold raw_segment. destruct (sw =? 3); simpl.
  - apply widen_24_even.
  - exact He.
Qed.

(** A segment that [from_raw] returns is the one built from the bytes. *)
Lemma from_raw_inv (data : bytes) (sw fr ch : Z) (seg : AudioSegment) :
  from_raw data sw fr ch = Ok seg -> seg = raw_segment data sw fr ch.
Proof.
  unfold from_raw.
  destruct ((sw =? 3) && (len data =? 0)); [discriminate |].
  now intros [= <-].
Qed.

Lemma from_raw_nonempty (data : bytes) (sw fr ch : Z) :
  data <> [] -> from_raw data sw fr ch = Ok (raw_segment data sw fr ch).
Proof.
  intros Hd. unfold from_raw.
  destruct data as [| b rest]; [contradiction |].
  unfold len. cbn [length].
  destruct (Z.eqb_spec (Z.of_nat (S (length rest))) 0) as [H0 | _]; [lia |].
  now rewrite andb_false_r.
Qed.

Lemma from_raw_not_24 (data : bytes) (sw fr ch : Z) :
  sw <> 3 -> from_raw data sw fr ch = Ok (raw_segment data sw fr ch).
Proof.
  intros Hs. unfold from_raw.
  now destruct (Z.eqb_spec sw 3); [contradiction |].
Qed.

(** [from_raw] raises on empty 24-bit data and on nothing else. *)
Lemma from_raw_raises (data : bytes) (sw fr ch : Z) (e : exn) :
  from_raw data sw fr ch = Raise e <-> sw = 3 /\ data = [] /\ e = IndexError.
Proof.
  split.
  - intros H. destruct data as [| b rest].
    + destruct (Z.eq_dec sw 3) as [Hs | Hs].
      * subst sw. cbn in H. injection H as <-. auto.
      * rewrite from_raw_not_24 in H by exact Hs. discriminate.
    + rewrite from_raw_nonempty in H by discriminate. discriminate.
  - intros (-> & -> & ->). reflexivity.
Qed.

Lemma odd_length_app_zero (data : bytes) :
  len data mod 2 <> 0 -> len (data ++ [x00]) mod 2 = 0.
Proof.
  intros Ho. unfold len in *. rewrite length_app. simpl length.
  pose proof (Z.mod_pos_bound (Z.of_nat (length data)) 2).
  rewrite Nat2Z.inj_add. simpl (Z.of_nat 1).
  rewrite Zplus_mod.
  replace (Z.of_nat (length data) mod 2) with 1 by lia.
  reflexivity.
Qed.

(** The two ways through the padding step. *)
Lemma pad_odd_odd (seg : AudioSegment) (sw fr ch : Z) :
  len (raw_data seg) mod 2 <> 0 ->
  pad_odd seg sw fr ch = Ok (raw_segment (raw_data seg ++ [x00]) sw fr ch).
Proof.
  intros Ho. unfold pad_odd.
  destruct (Z.eqb_spec (len (raw_data seg) mod 2) 0); [contradiction |].
  cbn [negb]. apply from_raw_nonempty.
  now destruct (raw_data seg).
Qed.

Lemma pad_odd_kept (seg : AudioSegment) (sw fr ch : Z) :
  len (raw_data seg) mod 2 = 0 -> pad_odd seg sw fr ch = Ok seg.
Proof. intros He. unfold pad_odd. now rewrite He. Qed.

(** The padding step raises nothing: what it rebuilds is never empty. *)
Lemma pad_odd_total (seg : AudioSegment) (sw fr ch : Z) :
  exists conv, pad_odd seg sw fr ch = Ok conv.
Proof.
  destruct (Z.eq_dec (len (raw_data seg) mod 2) 0) as [He | Ho].
  - exists seg. now apply pad_odd_kept.
  - eexists. now apply pad_odd_odd.
Qed.

Lemma pad_odd_even (seg conv : AudioSegment) (sw fr ch : Z) :
  pad_odd seg sw fr ch = Ok conv -> len (raw_data conv) mod 2 = 0.
Proof.
  intros H.
  destruct (Z.eq_dec (len (raw_data seg) mod 2) 0) as [He | Ho].
  - rewrite pad_odd_kept in H by exact He. now injection H as <-.
  - rewrite pad_odd_odd in H by exact Ho. injection H as <-.
    apply raw_segment_even. now apply odd_length_app_zero.
Qed.

Lemma pad_odd_params (seg conv : AudioSegment) (sw fr ch : Z) :
  pad_odd seg sw fr ch = Ok conv ->
  channels seg = ch -> frame_rate seg = fr ->
  channels conv = ch /\ frame_rate conv = fr.
Proof.
  intros H Hc Hf.
  destruct (Z.eq_dec (len (raw_data seg) mod 2) 0) as [He | Ho].
  - rewrite pad_odd_kept in H by exact He. injection H as <-. now split.
  - rewrite pad_odd_odd in H by exact Ho. injection H as <-.
    apply raw_segment_params.
Qed.

(** Unless the samples are widened, padding adds one byte at most. *)
Lemma pad_odd_length (seg conv : AudioSegment) (sw fr ch : Z) :
  sw <> 3 ->
  pad_odd seg sw fr ch = Ok conv ->
  (length (raw_data conv) <= length (raw_data seg) + 1)%nat.
Proof.
  intros Hs H.
  destruct (Z.eq_dec (len (raw_data seg) mod 2) 0) as [He | Ho].
  - rewrite pad_odd_kept in H by exact He. injection H as <-. lia.
  - rewrite pad_odd_odd in H by exact Ho. injection H as <-.
    unfold raw_segment.
    destruct (Z.eqb_spec sw 3); [contradiction |].
    cbn [raw_data]. rewrite length_app. simpl. lia.
Qed.

Lemma np_int16_even (data : bytes) :
  len data mod 2 = 0 -> np_int16 data = Ok (int16_samples data).
Proof. intros H. unfold np_int16. now rewrite H. Qed.

(** What [read_from_buffer] returns once the segment is built, the limit
    applied and the data padded. *)
Lemma read_from_buffer_after_limit {E : External}
      (buffer : bytes) (fr sw ch : Z) (limit : option Z)
      (whole seg conv : AudioSegment) :
  from_raw buffer sw fr ch = Ok whole ->
  apply_limit whole limit = Ok seg ->
  pad_odd seg sw fr ch = Ok conv ->
  read_from_buffer buffer fr sw ch limit
  = Ok (split_channels conv (int16_samples (raw_data conv)),
        frame_rate conv,
        unique_bytes_hash_default buffer).
Proof.
  intros HW HL HP. unfold read_from_buffer, read_from_buffer_try.
  rewrite HW. cbn [bind]. rewrite HL. cbn [bind]. rewrite HP. cbn [bind].
  rewrite np_int16_even by exact (pad_odd_even _ _ _ _ _ HP).
  reflexivity.
Qed.

(** C8.  Once the segment is built from the buffer and the limit has left
    a segment, an odd number of raw bytes gets one zero byte appended and
    the segment is rebuilt from that, which raises nothing; the data handed
    to the 16-bit conversion then has even length, the conversion succeeds,
    and [read_from_buffer] returns. *)
Theorem read_from_buffer_pads_odd_data :
  forall (E : External) (buffer : bytes) (fr sw ch : Z) (limit : option Z)
         (whole seg : AudioSegment),
    from_raw buffer sw fr ch = Ok whole ->
    apply_limit whole limit = Ok seg ->
    exists conv : AudioSegment,
      pad_odd seg sw fr ch = Ok conv
      /\ (len (raw_data seg) mod 2 <> 0 ->
            from_raw (raw_data seg ++ [x00]) sw fr ch = Ok conv
            /\ (sw <> 3 -> raw_data conv = raw_data seg ++ [x00]))
      /\ (len (raw_data seg) mod 2 = 0 -> conv = seg)
      /\ len (raw_data conv) mod 2 = 0
      /\ np_int16 (raw_data conv) = Ok (int16_samples (raw_data conv))
      /\ read_from_buffer buffer fr sw ch limit
         = Ok (split_channels conv (int16_samples (raw_data conv)),
               frame_rate conv, unique_bytes_hash_default buffer).
Proof.
  intros E buffer fr sw ch limit whole seg HW HL.
  destruct (pad_odd_total seg sw fr ch) as [conv HP].
  exists conv.
  pose proof (pad_odd_even _ _ _ _ _ HP) as Heven.
  split; [exact HP |].
  split; [| split; [| split; [| split]]].
  - intros Ho. rewrite pad_odd_odd in HP by exact Ho. injection HP as <-.
    split.
    + apply from_raw_nonempty. now destruct (raw_data seg).
    + intros Hs. unfold raw_segment.
      destruct (Z.eqb_spec sw 3); [contradiction | reflexivity].
  - intros He. rewrite pad_odd_kept in HP by exact He. now injection HP.
  - exact Heven.
  - now apply np_int16_even.
  - now apply (read_from_buffer_after_limit buffer fr sw ch limit whole seg).
Qed.

Lemma read_from_buffer_pads_odd_data_witness :
  from_raw [x01; x00; x02] 1 8000 1 = Ok (raw_segment [x01; x00; x02] 1 8000 1)
  /\ apply_limit (raw_segment [x01; x00; x02] 1 8000 1) None
     = Ok (raw_segment [x01; x00; x02] 1 8000 1)
  /\ exists conv : AudioSegment,
       pad_odd (raw_segment [x01; x00; x02] 1 8000 1) 1 8000 1 = Ok conv
       /\ raw_data conv = [x01; x00; x02; x00]
       /\ read_from_buffer [x01; x00; x02] 8000 1 1 None
          = Ok ([[1; 2]], 8000, unique_bytes_hash_default [x01; x00; x02]).
Proof.
  split; [reflexivity | split; [reflexivity |]].
  destruct (read_from_buffer_pads_odd_data
              exact_host [x01; x00; x02] 8000 1 1 None
              (raw_segment [x01; x00; x02] 1 8000 1)
              (raw_segment [x01; x00; x02] 1 8000 1) eq_refl eq_refl)
    as (conv & HP & Hodd & _ & _ & _ & H).
  exists conv.
  assert (Hraw : raw_data conv = [x01; x00; x02; x00]).
  { apply Hodd; discriminate. }
  split; [exact HP | split; [exact Hraw |]].
  rewrite H.
  assert (Hc : conv = raw_segment [x01; x00; x02; x00] 1 8000 1).
  { cbn in HP. now injection HP as <-. }
  rewrite Hc. reflexivity.
Defined.

(** The segment that comes out of the limit keeps the parameters. *)
Lemma apply_limit_params {E : External} (seg s : AudioSegment)
      (limit : option Z) :
  apply_limit seg limit = Ok s ->
  channels s = channels seg /\ frame_rate s = frame_rate seg.
Proof.
  unfold apply_limit, segment_slice. intros H.
  destruct limit as [n |]; [destruct (truthy (Some n)) |].
  - destruct (slice_data seg (n * 1000)); [| discriminate].
    simpl in H. injection H as <-. now split.
  - injection H as <-. now split.
  - injection H as <-. now split.
Qed.

Lemma wavio_fallback_raises {A} (arr : result (list (list Z))) (a : A) :
  wavio_fallback arr <> Ok a.
Proof. unfold wavio_fallback. destruct arr; discriminate. Qed.

(** A successful [read_from_buffer] went through the [try] block. *)
Lemma read_from_buffer_ok_inv {E : External}
      (buffer : bytes) (fr sw ch : Z) (limit : option Z) (r : decoded) :
  read_from_buffer buffer fr sw ch limit = Ok r ->
  exists whole seg conv,
    from_raw buffer sw fr ch = Ok whole
    /\ apply_limit whole limit = Ok seg
    /\ pad_odd seg sw fr ch = Ok conv.
Proof.
  intros H. unfold read_from_buffer, read_from_buffer_try in H.
  destruct (from_raw buffer sw fr ch) as [whole | e] eqn:HW; cbn [bind] in H.
  2:{ apply from_raw_raises in HW. destruct HW as (_ & _ & ->). discriminate. }
  destruct (apply_limit whole limit) as [seg | e] eqn:HL; cbn [bind] in H.
  2:{ destruct e; try discriminate. now apply wavio_fallback_raises in H. }
  destruct (pad_odd_total seg sw fr ch) as [conv HP].
  now exists whole, seg, conv.
Qed.

Lemma skipn_length_firstn {A} (n : nat) (l : list A) :
  skipn (length (firstn n l)) l = skipn n l.
Proof.
  rewrite length_firstn.
  destruct (Nat.le_ge_cases n (length l)) as [H | H].
  - now rewrite Nat.min_l.
  - rewrite Nat.min_r by exact H.
    now rewrite !skipn_all2 by lia.
Qed.

(** With a positive block size the file loop feeds the hash object the
    whole unread rest. *)
Lemma file_hash_loop_rest (bs : Z) :
  0 < bs ->
  forall (fuel : nat) (s : SHA1.t) (rest : bytes),
    (length rest < fuel)%nat ->
    file_hash_loop fuel s rest bs = Some (Ok (SHA1.update s rest)).
Proof.
  intros Hbs. induction fuel as [| f IH]; intros s rest Hfuel; [lia |].
  cbn [file_hash_loop]. unfold file_read.
  destruct (Z.ltb_spec bs (-1)); [lia |].
  destruct (Z.ltb_spec bs 0); [lia |].
  destruct (firstn (Z.to_nat bs) rest) as [| b buf] eqn:Hbuf.
  - destruct rest as [| a rest'].
    + now rewrite sha1_update_nil.
    + destruct (Z.to_nat bs) eqn:Hn; [lia | discriminate].
  - rewrite <- Hbuf, skipn_length_firstn.
    rewrite IH.
    + now rewrite sha1_update_update, firstn_skipn.
    + assert (length (firstn (Z.to_nat bs) rest) <> 0)%nat
        by (rewrite Hbuf; discriminate).
      rewrite length_firstn in H1. rewrite length_skipn. lia.
Qed.

Lemma unique_hash_default_eq {E : External} (path : string) (content : bytes) :
  file_content path = Some content ->
  unique_hash_default path
  = Ok (upper (SHA1.hexdigest (SHA1.update SHA1.new content))).
Proof.
  intros H. unfold unique_hash_default. rewrite H.
  rewrite file_hash_loop_rest; [reflexivity | | lia].
  unfold default_block_size. lia.
Qed.

(** C7.  When the decoder returns, it returns one channel per channel of the
    audio; the samples are signed 16-bit values read from the raw data that
    was converted; channel [k] holds the samples at positions k, k+c,
    k+2c, ... of that stream, in order; the rate is the frame rate of the
    audio; and the hash is the upper-case SHA-1 digest of the input, the
    buffer for [read_from_buffer] and the file content for [read]. *)
Theorem decoder_channels_deinterleave :
  forall (E : External),
    (forall (buffer : bytes) (fr sw ch : Z) (limit : option Z)
            (chans : list (list Z)) (rate : Z) (h : string),
        read_from_buffer buffer fr sw ch limit = Ok (chans, rate, h) ->
        exists (whole seg conv : AudioSegment) (stream : list Z),
          from_raw buffer sw fr ch = Ok whole
          /\ apply_limit whole limit = Ok seg
          /\ pad_odd seg sw fr ch = Ok conv
          /\ stream = int16_samples (raw_data conv)
          /\ Forall is_int16 stream
          /\ length chans = Z.to_nat ch
          /\ (forall (k : nat) (chan : list Z),
                 nth_error chans k = Some chan ->
                 forall j : nat,
                   nth_error chan j = nth_error stream (k + j * Z.to_nat ch))
          /\ rate = fr
          /\ h = upper (SHA1.hexdigest (SHA1.update SHA1.new buffer)))
    /\
    (forall (file_name : string) (limit : option Z)
            (chans : list (list Z)) (rate : Z) (h : string),
        read file_name limit = Ok (chans, rate, h) ->
        exists (audio seg : AudioSegment) (content : bytes) (stream : list Z),
          from_file file_name = Ok audio
          /\ apply_limit audio limit = Ok seg
          /\ file_content file_name = Some content
          /\ stream = int16_samples (raw_data seg)
          /\ Forall is_int16 stream
          /\ length chans = Z.to_nat (channels audio)
          /\ (forall (k : nat) (chan : list Z),
                 nth_error chans k = Some chan ->
                 forall j : nat,
                   nth_error chan j
                   = nth_error stream (k + j * Z.to_nat (channels audio)))
          /\ rate = frame_rate audio
          /\ h = upper (SHA1.hexdigest (SHA1.update SHA1.new content))).
Proof.
  intros E. split.
  - intros buffer fr sw ch limit chans rate h H.
    destruct (read_from_buffer_ok_inv _ _ _ _ _ _ H)
      as (whole & seg & conv & HW & HL & HP).
    rewrite (read_from_buffer_after_limit _ _ _ _ _ _ _ _ HW HL HP) in H.
    injection H as <- <- <-.
    pose proof (from_raw_inv _ _ _ _ _ HW) as ->.
    destruct (raw_segment_params buffer sw fr ch) as [Hc0 Hf0].
    destruct (apply_limit_params _ _ _ HL) as [Hc1 Hf1].
    destruct (pad_odd_params seg conv sw fr ch HP) as [Hc Hf];
      [congruence .. |].
    exists (raw_segment buffer sw fr ch), seg, conv,
           (int16_samples (raw_data conv)).
    split; [exact HW |]. split; [exact HL |]. split; [exact HP |].
    split; [reflexivity |].
    split; [apply int16_samples_range |].
    split; [now rewrite split_channels_length, Hc |].
    split; [| split].
    + intros k chan Hk j.
      rewrite (split_channels_nth _ _ _ _ Hk j). now rewrite Hc.
    + exact Hf.
    + apply unique_bytes_hash_default_eq.
  - intros file_name limit chans rate h H.
    unfold read, read_try in H.
    destruct (from_file file_name) as [audio | e] eqn:HF; cbn [bind] in H.
    2:{ destruct e; try discriminate. now apply wavio_fallback_raises in H. }
    destruct (apply_limit audio limit) as [seg | e] eqn:HL; cbn [bind] in H.
    2:{ destruct e; try discriminate. now apply wavio_fallback_raises in H. }
    unfold np_int16 in H.
    destruct (len (raw_data seg) mod 2 =? 0); cbn [bind] in H;
      [| discriminate].
    destruct (file_content file_name) as [content |] eqn:HC.
    2:{ unfold unique_hash_default in H. rewrite HC in H. discriminate. }
    rewrite (unique_hash_default_eq file_name content HC) in H.
    cbn [bind] in H. injection H as <- <- <-.
    destruct (apply_limit_params _ _ _ HL) as [Hc Hf].
    exists audio, seg, content, (int16_samples (raw_data seg)).
    repeat split; auto.
    + apply int16_samples_range.
    + now rewrite split_channels_length, Hc.
    + intros k chan Hk j.
      rewrite (split_channels_nth _ _ _ _ Hk j). now rewrite Hc.
Qed.

Example read_example :
  read "a.raw" None
  = Ok ([[1; -1]; [2; -32768]], 2,
        upper (SHA1.hexdigest (SHA1.update SHA1.new example_pcm))).
Proof. vm_compute. reflexivity. Qed.

Lemma decoder_channels_deinterleave_witness :
  (exists (whole seg conv : AudioSegment) (stream : list Z),
      from_raw example_pcm 2 48000 2 = Ok whole
      /\ apply_limit whole None = Ok seg
      /\ pad_odd seg 2 48000 2 = Ok conv
      /\ stream = int16_samples (raw_data conv)
      /\ Forall is_int16 stream
      /\ length [[1; -1]; [2; -32768]] = Z.to_nat 2
      /\ (forall (k : nat) (chan : list Z),
             nth_error [[1; -1]; [2; -32768]] k = Some chan ->
             forall j : nat,
               nth_error chan j = nth_error stream (k + j * Z.to_nat 2))
      /\ 48000 = 48000
      /\ unique_bytes_hash_default example_pcm
         = upper (SHA1.hexdigest (SHA1.update SHA1.new example_pcm)))
  /\ read "a.raw" None
     = Ok ([[1; -1]; [2; -32768]], 2,
           upper (SHA1.hexdigest (SHA1.update SHA1.new example_pcm))).
Proof.
  split.
  - apply (proj1 (decoder_channels_deinterleave exact_host)
                 example_pcm 48000 2 2 None).
    reflexivity.
  - exact read_example.
Defined.

(** The limit is applied under [if limit:], which a limit of zero fails. *)
Lemma apply_limit_zero {E : External} (seg : AudioSegment) :
  apply_limit seg (Some 0) = apply_limit seg None.
Proof. reflexivity. Qed.

Lemma apply_limit_nonzero {E : External} (seg : AudioSegment) (n : Z) :
  n <> 0 -> apply_limit seg (Some n) = segment_slice seg (n * 1000).
Proof.
  intros Hn. unfold apply_limit, truthy.
  destruct (Z.eqb_spec n 0); [contradiction | reflexivity].
Qed.

Lemma apply_limit_falsy {E : External} (seg : AudioSegment) (limit : option Z) :
  truthy limit = false -> apply_limit seg limit = Ok seg.
Proof.
  intros H. unfold apply_limit. destruct limit; [now rewrite H | reflexivity].
Qed.

(** C6, as stated, fails at a limit of zero seconds: the one-second,
    two-channel buffer [example_pcm] at 2 frames per second comes back
    whole, two samples per channel, where the first zero seconds hold none. *)
Lemma read_from_buffer_limit_zero_counterexample :
  ~ (forall (N : Z) (chans : list (list Z)) (rate : Z) (h : string),
        0 <= N ->
        read_from_buffer example_pcm 2 2 2 (Some N) = Ok (chans, rate, h) ->
        within_seconds 2 N chans).
Proof.
  intros H.
  specialize (H 0 [[1; -1]; [2; -32768]] 2
                (unique_bytes_hash_default example_pcm)
                (Z.le_refl 0) eq_refl).
  inversion H as [| chan rest Hlen _]. subst.
  unfold len in Hlen. simpl in Hlen. lia.
Qed.

Lemma int16_samples_length (data : bytes) :
  (2 * length (int16_samples data) <= length data)%nat.
Proof.
  induction data as [| a | lo hi rest IH] using pairs_ind; simpl; lia.
Qed.

Lemma split_channels_bound (seg : AudioSegment) (data : list Z) (m : Z)
      (chan : list Z) :
  0 < channels seg -> 0 <= m ->
  len data <= m * channels seg ->
  In chan (split_channels seg data) ->
  len chan <= m.
Proof.
  intros Hc Hm Hdata Hin.
  apply In_nth_error in Hin. destruct Hin as [k Hk].
  pose proof (split_channels_nth _ _ _ _ Hk) as Hnth.
  unfold len in *.
  destruct (length chan) as [| L] eqn:HL; [lia |].
  assert (Hlast : nth_error chan L <> None)
    by (apply nth_error_Some; lia).
  rewrite Hnth in Hlast. apply nth_error_Some in Hlast.
  assert (Z.of_nat L * channels seg < m * channels seg) by
    (replace (channels seg) with (Z.of_nat (Z.to_nat (channels seg))) by lia;
     nia).
  nia.
Qed.

(** Channels split from the 16-bit samples of no more bytes than [n]
    seconds of 16-bit frames hold, give or take the pad byte. *)
Lemma split_channels_within (seg : AudioSegment) (rate n : Z) :
  0 < channels seg -> 0 <= n * rate ->
  (length (raw_data seg) <= Z.to_nat (n * rate * (channels seg * 2)) + 1)%nat ->
  within_seconds rate n
    (split_channels seg (int16_samples (raw_data seg))).
Proof.
  intros Hc Hm Hlen. apply Forall_forall. intros chan Hin.
  apply (split_channels_bound seg (int16_samples (raw_data seg)));
    [exact Hc | exact Hm | | exact Hin].
  pose proof (int16_samples_length (raw_data seg)) as H1.
  unfold len. nia.
Qed.

(** A prefix short enough is a prefix of the first seconds. *)
Lemma firstn_within {A} (k b : nat) (l : list A) :
  (length (firstn k l) <= b)%nat ->
  firstn k l = firstn (length (firstn k l)) (firstn b l).
Proof.
  intros H. rewrite firstn_firstn, Nat.min_l by exact H.
  rewrite length_firstn.
  destruct (Nat.le_ge_cases k (length l)) as [Hk | Hk].
  - now rewrite Nat.min_l.
  - rewrite Nat.min_r by exact Hk.
    now rewrite firstn_all, firstn_all2.
Qed.

(** Under the law of the slice, a positive limit leaves data drawn from
    the first seconds only. *)
Lemma apply_limit_first_seconds {E : External} (whole seg : AudioSegment) (N : Z) :
  slice_keeps_start E ->
  0 < N ->
  apply_limit whole (Some N) = Ok seg ->
  from_first_seconds whole N (raw_data seg)
  /\ channels seg = channels whole
  /\ frame_rate seg = frame_rate whole.
Proof.
  intros Hlaw HN HL.
  destruct (apply_limit_params _ _ _ HL) as [Hc Hf].
  split; [| now split].
  rewrite apply_limit_nonzero in HL by lia.
  unfold segment_slice in HL.
  destruct (slice_data whole (N * 1000)) as [d | e] eqn:Hd; [| discriminate].
  cbn [bind] in HL. injection HL as <-. cbn [raw_data].
  destruct (Hlaw whole (N * 1000) d ltac:(lia) Hd) as (k & silent & Hdk & Hlen & Hsil).
  replace (N * 1000 * frame_rate whole) with (N * frame_rate whole * 1000)
    in Hlen by lia.
  rewrite Z.div_mul in Hlen by lia.
  unfold from_first_seconds, first_seconds.
  set (b := Z.to_nat (N * frame_rate whole * frame_width whole)) in *.
  assert (Hd_len : length d = (length (firstn k (raw_data whole)) + silent)%nat)
    by (rewrite Hdk at 1; now rewrite length_app, repeat_length).
  exists (length (firstn k (raw_data whole))), silent.
  split; [| split].
  - rewrite <- firstn_within by lia. exact Hdk.
  - exact Hlen.
  - intros Hb. destruct silent as [| s]; [reflexivity | exfalso].
    assert (Hk : (length (raw_data whole) <= k)%nat) by (apply Hsil; discriminate).
    rewrite firstn_all2 in Hd_len by exact Hk. lia.
Qed.

(** C6, amended.  Under a positive limit of [N] seconds, and with a slice
    that does what pydub documents, a decoder that returns has converted
    raw data drawn from the first [N] seconds of the audio only: a prefix
    of them, after which come at most the silent frames of the slice and,
    in [read_from_buffer], the pad byte; of 16-bit frames every channel
    holds [N * frame_rate] samples at most.  Without a limit, and with a
    limit of zero, the whole audio is decoded. *)
Theorem decoder_limit_first_seconds :
  forall (E : External),
    (slice_keeps_start E ->
     (forall (buffer : bytes) (fr sw ch N : Z)
             (chans : list (list Z)) (rate : Z) (h : string),
         0 < N ->
         read_from_buffer buffer fr sw ch (Some N) = Ok (chans, rate, h) ->
         exists (whole seg conv : AudioSegment),
           from_raw buffer sw fr ch = Ok whole
           /\ apply_limit whole (Some N) = Ok seg
           /\ from_first_seconds whole N (raw_data seg)
           /\ pad_odd seg sw fr ch = Ok conv
           /\ chans = split_channels conv (int16_samples (raw_data conv))
           /\ (sw = 2 -> 0 <= fr -> 0 < ch -> within_seconds fr N chans))
     /\ (forall (file_name : string) (N : Z)
                (chans : list (list Z)) (rate : Z) (h : string),
            0 < N ->
            read file_name (Some N) = Ok (chans, rate, h) ->
            exists (audio seg : AudioSegment),
              from_file file_name = Ok audio
              /\ apply_limit audio (Some N) = Ok seg
              /\ from_first_seconds audio N (raw_data seg)
              /\ chans = split_channels seg (int16_samples (raw_data seg))
              /\ (frame_width audio = channels audio * 2 ->
                  0 <= frame_rate audio -> 0 < channels audio ->
                  within_seconds (frame_rate audio) N chans)))
    /\ (forall (buffer : bytes) (fr sw ch : Z) (limit : option Z)
               (whole : AudioSegment),
           truthy limit = false ->
           from_raw buffer sw fr ch = Ok whole ->
           exists conv : AudioSegment,
             pad_odd whole sw fr ch = Ok conv
             /\ read_from_buffer buffer fr sw ch limit
                = Ok (split_channels conv (int16_samples (raw_data conv)), fr,
                      unique_bytes_hash_default buffer))
    /\ (forall (file_name : string) (limit : option Z) (audio : AudioSegment),
           truthy limit = false ->
           from_file file_name = Ok audio ->
           read file_name limit
           = (data <- np_int16 (raw_data audio) ;;
              h <- unique_hash_default file_name ;;
              Ok (split_channels audio data, frame_rate audio, h))).
Proof.
  intros E. split; [intros Hlaw; split | split].
  - intros buffer fr sw ch N chans rate h HN H.
    destruct (read_from_buffer_ok_inv _ _ _ _ _ _ H)
      as (whole & seg & conv & HW & HL & HP).
    rewrite (read_from_buffer_after_limit _ _ _ _ _ _ _ _ HW HL HP) in H.
    injection H as <- _ _.
    destruct (apply_limit_first_seconds whole seg N Hlaw HN HL)
      as (Hfirst & Hc1 & Hf1).
    exists whole, seg, conv.
    split; [exact HW |]. split; [exact HL |]. split; [exact Hfirst |].
    split; [exact HP |]. split; [reflexivity |].
    intros Hsw Hfr Hch.
    pose proof (from_raw_inv _ _ _ _ _ HW) as Hwhole.
    destruct (raw_segment_params buffer sw fr ch) as [Hc0 Hf0].
    rewrite <- Hwhole in Hc0, Hf0.
    destruct (pad_odd_params seg conv sw fr ch HP) as [Hc Hf];
      [congruence .. |].
    assert (Hfw : frame_width whole = ch * 2).
    { rewrite Hwhole, Hsw. reflexivity. }
    destruct Hfirst as (k & silent & _ & Hlen & _).
    rewrite Hf0, Hfw in Hlen.
    pose proof (pad_odd_length seg conv sw fr ch ltac:(lia) HP) as Hpad.
    apply split_channels_within; [lia | nia |].
    rewrite Hc. lia.
  - intros file_name N chans rate h HN H.
    unfold read, read_try in H.
    destruct (from_file file_name) as [audio | e] eqn:HF; cbn [bind] in H.
    2:{ destruct e; try discriminate. now apply wavio_fallback_raises in H. }
    destruct (apply_limit audio (Some N)) as [seg | e] eqn:HL; cbn [bind] in H.
    2:{ destruct e; try discriminate. now apply wavio_fallback_raises in H. }
    unfold np_int16 in H.
    destruct (len (raw_data seg) mod 2 =? 0); cbn [bind] in H;
      [| discriminate].
    destruct (unique_hash_default file_name) as [h' | e];
      cbn [bind] in H; [| discriminate].
    injection H as <- _ _.
    destruct (apply_limit_first_seconds audio seg N Hlaw HN HL)
      as (Hfirst & Hc & Hf).
    exists audio, seg.
    split; [reflexivity |]. split; [exact HL |]. split; [exact Hfirst |].
    split; [reflexivity |].
    intros Hfw Hfr Hch.
    destruct Hfirst as (k & silent & _ & Hlen & _).
    rewrite Hfw in Hlen.
    apply split_channels_within; [lia | nia |].
    rewrite Hc. lia.
  - intros buffer fr sw ch limit whole Hlim HW.
    destruct (pad_odd_total whole sw fr ch) as [conv HP].
    exists conv. split; [exact HP |].
    rewrite (read_from_buffer_after_limit buffer fr sw ch limit whole whole conv
               HW (apply_limit_falsy whole limit Hlim) HP).
    pose proof (from_raw_inv _ _ _ _ _ HW) as Hwhole.
    destruct (raw_segment_params buffer sw fr ch) as [Hc0 Hf0].
    rewrite <- Hwhole in Hc0, Hf0.
    now destruct (pad_odd_params whole conv sw fr ch HP Hc0 Hf0) as [_ ->].
  - intros file_name limit audio Hlim HF.
    unfold read, read_try. rewrite HF. cbn [bind].
    rewrite (apply_limit_falsy audio limit Hlim). cbn [bind].
    unfold np_int16.
    destruct (len (raw_data audio) mod 2 =? 0); reflexivity.
Qed.

(** The slice in exact arithmetic does what pydub documents. *)
Lemma exact_slice_keeps_start : slice_keeps_start exact_host.
Proof.
  intros seg ms d Hms H. cbn in H. unfold exact_slice in H.
  injection H as <-.
  exists (Z.to_nat (ms * frame_rate seg / 1000 * frame_width seg)), 0%nat.
  split; [| split].
  - cbn [repeat]. now rewrite app_nil_r.
  - rewrite length_firstn. lia.
  - intros Hs. now contradiction Hs.
Qed.

Lemma decoder_limit_first_seconds_witness :
  slice_keeps_start exact_host
  /\ 0 < 1
  /\ read_from_buffer (example_pcm ++ example_pcm) 2 2 2 (Some 1)
     = Ok ([[1; -1]; [2; -32768]], 2,
           unique_bytes_hash_default (example_pcm ++ example_pcm))
  /\ exists (whole seg conv : AudioSegment),
       from_raw (example_pcm ++ example_pcm) 2 2 2 = Ok whole
       /\ apply_limit whole (Some 1) = Ok seg
       /\ from_first_seconds whole 1 (raw_data seg)
       /\ pad_odd seg 2 2 2 = Ok conv
       /\ [[1; -1]; [2; -32768]]
          = split_channels conv (int16_samples (raw_data conv))
       /\ (2 = 2 -> 0 <= 2 -> 0 < 2 ->
           within_seconds 2 1 [[1; -1]; [2; -32768]]).
Proof.
  assert (H1 : 0 < 1) by reflexivity.
  refine (conj exact_slice_keeps_start (conj H1 (conj eq_refl _))).
  exact (proj1 (proj1 (decoder_limit_first_seconds exact_host)
                      exact_slice_keeps_start)
               (example_pcm ++ example_pcm) 2 2 2 1
               [[1; -1]; [2; -32768]] 2
               (unique_bytes_hash_default (example_pcm ++ example_pcm))
               H1 eq_refl).
Defined.

(** ** The fingerprint store *)

Lemma bytes_eqb_eq (a b : bytes) : bytes_eqb a b = true <-> a = b.
Proof.
  unfold bytes_eqb. destruct (list_eq_dec Byte.byte_eq_dec a b); split;
    intros; congruence.
Qed.

Lemma bytes_eqb_refl (a : bytes) : bytes_eqb a a = true.
Proof. now apply bytes_eqb_eq. Qed.

Lemma song_exists_In (ss : list song_row) (id : uuid) :
  song_exists ss id = true <-> exists s, In s ss /\ song_id s = id.
Proof.
  unfold song_exists. rewrite existsb_exists. split.
  - intros (s & Hin & He). apply String.eqb_eq in He. eauto.
  - intros (s & Hin & He). exists s. split; [exact Hin |].
    now apply String.eqb_eq.
Qed.

Lemma pk_conflict_In (t : list fingerprint_row) (r : fingerprint_row) :
  pk_conflict t r = true <-> In (fp_hash r) (map fp_hash t).
Proof.
  unfold pk_conflict. rewrite existsb_exists, in_map_iff. split.
  - intros (r' & Hin & He). apply bytes_eqb_eq in He. eauto.
  - intros (r' & He & Hin). exists r'. split; [exact Hin |].
    now apply bytes_eqb_eq.
Qed.

(** The UNIQUE constraint adds nothing to the primary key on [hash]. *)
Lemma uq_conflict_pk (t : list fingerprint_row) (r : fingerprint_row) :
  uq_conflict t r = true -> pk_conflict t r = true.
Proof.
  unfold uq_conflict, pk_conflict. rewrite !existsb_exists.
  intros (r' & Hin & He). exists r'. split; [exact Hin |].
  now apply andb_prop in He.
Qed.

Lemma conflict_pk (t : list fingerprint_row) (r : fingerprint_row) :
  conflict t r = pk_conflict t r.
Proof.
  unfold conflict. destruct (pk_conflict t r) eqn:Hp; [reflexivity |].
  destruct (uq_conflict t r) eqn:Hu; [| reflexivity].
  apply uq_conflict_pk in Hu. congruence.
Qed.

Lemma conflict_app (t t' : list fingerprint_row) (r : fingerprint_row) :
  conflict t r = true -> conflict (t ++ t') r = true.
Proof.
  rewrite !conflict_pk, !pk_conflict_In, map_app, in_app_iff. auto.
Qed.

Lemma conflict_self (t : list fingerprint_row) (r : fingerprint_row) :
  conflict (t ++ [r]) r = true.
Proof.
  rewrite conflict_pk, pk_conflict_In, map_app, in_app_iff.
  right. now left.
Qed.

(** The rows a statement leaves: the old table, then rows of the statement;
    and every row of the statement now has a conflict. *)
Lemma insert_rows_grows (ss : list song_row) (rows : list fingerprint_row) :
  forall t t',
    insert_rows ss t rows = Ok t' ->
    (exists added, t' = t ++ added /\ incl added rows)
    /\ forall r, In r rows -> conflict t' r = true.
Proof.
  induction rows as [| r rows IH]; intros t t' H; simpl in H.
  - injection H as <-. split.
    + exists []. split; [now rewrite app_nil_r | apply incl_refl].
    + intros r [].
  - destruct (conflict t r) eqn:Hc.
    + destruct (IH _ _ H) as ((added & -> & Hincl) & Hall). split.
      * exists added. split; [reflexivity | now apply incl_tl].
      * intros r' [<- | Hin]; [now apply conflict_app | now apply Hall].
    + destruct (song_exists ss (fp_song_id r)); [| discriminate].
      destruct (IH _ _ H) as ((added & -> & Hincl) & Hall). split.
      * exists (r :: added). split; [now rewrite <- app_assoc |].
        intros x [<- | Hx]; [now left | right; now apply Hincl].
      * intros r' [<- | Hin]; [| now apply Hall].
        apply conflict_app, conflict_self.
Qed.

(** Rows that all have a conflict are all skipped, foreign key unchecked. *)
Lemma insert_rows_all_conflict (ss : list song_row)
      (t : list fingerprint_row) (rows : list fingerprint_row) :
  (forall r, In r rows -> conflict t r = true) ->
  insert_rows ss t rows = Ok t.
Proof.
  induction rows as [| r rows IH]; intros H; simpl; [reflexivity |].
  rewrite (H r) by now left.
  apply IH. intros r' Hin. apply H. now right.
Qed.

Lemma insert_rows_idempotent (ss : list song_row)
      (t t' : list fingerprint_row) (rows : list fingerprint_row) :
  insert_rows ss t rows = Ok t' -> insert_rows ss t' rows = Ok t'.
Proof.
  intros H. apply insert_rows_all_conflict.
  now apply (insert_rows_grows ss rows t t').
Qed.

Lemma INSERT_FINGERPRINT_inv (d d' : db) (values : list (uuid * string * Z)) :
  INSERT_FINGERPRINT d values = Ok d' ->
  exists rows t,
    mapM fingerprint_value values = Ok rows
    /\ insert_rows (songs d) (fingerprints d) rows = Ok t
    /\ d' = mkDb (songs d) t.
Proof.
  unfold INSERT_FINGERPRINT. intros H.
  destruct (mapM fingerprint_value values) as [rows | e]; [| discriminate].
  cbn [bind] in H.
  destruct (insert_rows (songs d) (fingerprints d) rows) as [t | e] eqn:Hi;
    [| discriminate].
  cbn [bind] in H. injection H as <-.
  exists rows, t. now repeat split.
Qed.

Lemma INSERT_FINGERPRINT_idempotent (d d' : db)
      (values : list (uuid * string * Z)) :
  INSERT_FINGERPRINT d values = Ok d' -> INSERT_FINGERPRINT d' values = Ok d'.
Proof.
  intros H. destruct (INSERT_FINGERPRINT_inv _ _ _ H) as (rows & t & Hm & Hi & ->).
  unfold INSERT_FINGERPRINT. rewrite Hm. cbn [bind songs fingerprints].
  now rewrite (insert_rows_idempotent _ _ _ _ Hi).
Qed.

Lemma insert_hashes_again (d d' : db) (sid : uuid)
      (hashes : list (string * Z)) :
  insert_hashes d sid hashes = Ok d' -> insert_hashes d' sid hashes = Ok d'.
Proof. unfold insert_hashes. apply INSERT_FINGERPRINT_idempotent. Qed.

(** C3.  Inserting a fingerprint that is stored already changes nothing and
    raises nothing; and after [insert_hashes] has run once, running it again
    with the same song and the same pairs succeeds when the first run did,
    leaves the store as it is, and so leaves the fingerprint count as it
    is. *)
Theorem insert_hashes_idempotent :
  forall (d : db) (sid : uuid),
    (forall (hsh : string) (h : bytes) (offset : Z),
        hex_decode hsh = Some h ->
        is_int4 offset = true ->
        In (mkFingerprint h sid offset) (fingerprints d) ->
        insert_hashes d sid [(hsh, offset)] = Ok d)
    /\ (forall (hashes : list (string * Z)) (d' : db),
           insert_hashes d sid hashes = Ok d' ->
           insert_hashes d' sid hashes = Ok d')
    /\ (forall hashes : list (string * Z),
           let d1 := store_after d (insert_hashes d sid hashes) in
           let d2 := store_after d1 (insert_hashes d1 sid hashes) in
           d2 = d1 /\ SELECT_NUM_FINGERPRINTS d2 = SELECT_NUM_FINGERPRINTS d1).
Proof.
  intros d sid. split; [| split].
  - intros hsh h offset Hh Ho Hin.
    unfold insert_hashes, INSERT_FINGERPRINT. simpl.
    rewrite Hh, Ho. cbn [bind insert_rows].
    assert (Hc : conflict (fingerprints d) (mkFingerprint h sid offset) = true).
    { rewrite conflict_pk, pk_conflict_In. simpl.
      change h with (fp_hash (mkFingerprint h sid offset)).
      now apply in_map. }
    rewrite Hc. cbn [bind]. now destruct d.
  - intros hashes d' H. now apply (insert_hashes_again d).
  - intros hashes d1 d2.
    assert (H : d2 = d1).
    { subst d2 d1.
      destruct (insert_hashes d sid hashes) as [d' | e] eqn:H1; simpl.
      - now rewrite (insert_hashes_again _ _ _ _ H1).
      - now rewrite H1. }
    split; [exact H | now rewrite H].
Qed.

Example insert_hashes_twice :
  exists d1,
    insert_hashes two_songs "A" [("ab", 1); ("CD", 7); ("AB", 1)] = Ok d1
    /\ insert_hashes d1 "A" [("ab", 1); ("CD", 7); ("AB", 1)] = Ok d1
    /\ SELECT_NUM_FINGERPRINTS d1 = 2.
Proof. eexists. repeat split. Qed.

Lemma insert_hashes_idempotent_witness :
  insert_hashes
    (mkDb (songs two_songs) [mkFingerprint [xab] "A" 1]) "A" [("AB", 1)]
  = Ok (mkDb (songs two_songs) [mkFingerprint [xab] "A" 1])
  /\ insert_hashes
       (mkDb (songs two_songs) [mkFingerprint [xab] "A" 1; mkFingerprint [xcd] "A" 7])
       "A" [("ab", 1); ("CD", 7); ("AB", 1)]
     = Ok (mkDb (songs two_songs)
                [mkFingerprint [xab] "A" 1; mkFingerprint [xcd] "A" 7]).
Proof.
  split.
  - apply (proj1 (insert_hashes_idempotent
                    (mkDb (songs two_songs) [mkFingerprint [xab] "A" 1]) "A")
                 "AB"%string [xab] 1).
    + reflexivity.
    + reflexivity.
    + simpl. now left.
  - apply (proj1 (proj2 (insert_hashes_idempotent two_songs "A"))
                 [("ab"%string, 1); ("CD"%string, 7); ("AB"%string, 1)]).
    reflexivity.
Defined.

(** ** Chunked lookup *)

Lemma mapM_app {A B} (f : A -> result B) (l1 l2 : list A) (bs : list B) :
  mapM f (l1 ++ l2) = Ok bs ->
  exists b1 b2, mapM f l1 = Ok b1 /\ mapM f l2 = Ok b2 /\ bs = b1 ++ b2.
Proof.
  revert bs. induction l1 as [| a l1 IH]; intros bs H; simpl in *.
  - exists [], bs. auto.
  - destruct (f a) as [b | e]; [| discriminate]. cbn [bind] in *.
    destruct (mapM f (l1 ++ l2)) as [bs' | e] eqn:Hm; [| discriminate].
    cbn [bind] in H. injection H as <-.
    destruct (IH _ eq_refl) as (b1 & b2 & -> & H2 & ->).
    exists (b :: b1), b2. cbn [bind]. auto.
Qed.

Lemma mapM_app_raise {A B} (f : A -> result B) (l1 l2 : list A) :
  is_ok (mapM f (l1 ++ l2)) = is_ok (mapM f l1) && is_ok (mapM f l2).
Proof.
  induction l1 as [| a l1 IH]; simpl; [reflexivity |].
  destruct (f a); [| reflexivity]. cbn [bind].
  destruct (mapM f (l1 ++ l2)), (mapM f l1); simpl in *;
    try reflexivity; try discriminate; exact IH.
Qed.

Lemma hash_in_In (hs : list bytes) (r : fingerprint_row) :
  hash_in hs r = true <-> In (fp_hash r) hs.
Proof.
  unfold hash_in. rewrite existsb_exists. split.
  - intros (h & Hin & He). apply bytes_eqb_eq in He. now subst.
  - intros Hin. exists (fp_hash r). split; [exact Hin | apply bytes_eqb_refl].
Qed.

Lemma hash_in_app (h1 h2 : list bytes) (r : fingerprint_row) :
  hash_in (h1 ++ h2) r = hash_in h1 r || hash_in h2 r.
Proof. unfold hash_in. apply existsb_app. Qed.

Lemma NoDup_app_disjoint {A} (l1 l2 : list A) (x : A) :
  NoDup (l1 ++ l2) -> In x l1 -> In x l2 -> False.
Proof.
  induction l1 as [| a l1 IH]; intros Hnd H1 H2; [contradiction |].
  simpl in Hnd. inversion Hnd as [| ? ? Hnotin Hnd']. subst.
  destruct H1 as [-> | H1].
  - apply Hnotin, in_or_app. now right.
  - now apply IH.
Qed.

Lemma NoDup_app_right {A} (l1 l2 : list A) : NoDup (l1 ++ l2) -> NoDup l2.
Proof.
  induction l1 as [| a l1 IH]; intros H; [exact H |].
  inversion H. now apply IH.
Qed.

(** Rows matching one of two disjoint hash lists: same rows, regrouped. *)
Lemma filter_hash_in_app (t : list fingerprint_row) (h1 h2 : list bytes) :
  NoDup (h1 ++ h2) ->
  Permutation (filter (hash_in h1) t ++ filter (hash_in h2) t)
              (filter (hash_in (h1 ++ h2)) t).
Proof.
  intros Hnd. induction t as [| r t IH]; simpl; [constructor |].
  rewrite hash_in_app.
  destruct (hash_in h1 r) eqn:E1, (hash_in h2 r) eqn:E2; simpl.
  - exfalso. apply hash_in_In in E1, E2.
    exact (NoDup_app_disjoint _ _ _ Hnd E1 E2).
  - now constructor.
  - apply Permutation_sym, Permutation_cons_app, Permutation_sym, IH.
  - exact IH.
Qed.

Lemma filter_hash_in_app_In (t : list fingerprint_row) (h1 h2 : list bytes)
      (r : fingerprint_row) :
  In r (filter (hash_in h1) t ++ filter (hash_in h2) t)
  <-> In r (filter (hash_in (h1 ++ h2)) t).
Proof.
  rewrite in_app_iff, !filter_In, hash_in_app, orb_true_iff. tauto.
Qed.

Lemma SELECT_MULTIPLE_decoded (d : db) (hashes : list string) (hs : list bytes) :
  mapM decode_hash hashes = Ok hs ->
  SELECT_MULTIPLE d hashes
  = Ok (map select_row (filter (hash_in hs) (fingerprints d))).
Proof. intros H. unfold SELECT_MULTIPLE. now rewrite H. Qed.

Lemma chunk_rows_perm (t : list fingerprint_row) (hss : list (list bytes)) :
  NoDup (concat hss) ->
  Permutation (chunk_rows t hss) (filter (hash_in (concat hss)) t).
Proof.
  induction hss as [| hs hss IH]; intros Hnd; simpl.
  - induction t; simpl; auto.
  - etransitivity; [| apply filter_hash_in_app; exact Hnd].
    apply Permutation_app_head, IH. eapply NoDup_app_right, Hnd.
Qed.

Lemma chunk_rows_In (t : list fingerprint_row) (hss : list (list bytes))
      (r : fingerprint_row) :
  In r (chunk_rows t hss) <-> In r (filter (hash_in (concat hss)) t).
Proof.
  induction hss as [| hs hss IH]; simpl.
  - rewrite filter_In. unfold hash_in. simpl. split; [contradiction |].
    intros [_ H]. discriminate.
  - rewrite <- filter_hash_in_app_In, !in_app_iff, IH. tauto.
Qed.

(** When every hash decodes, the chunked lookup returns the rows of
    [chunk_rows] for the decoded chunks. *)
Lemma query_chunks_decoded (d : db) (chunks : list (list string)) :
  forall hs,
    mapM decode_hash (concat chunks) = Ok hs ->
    exists hss,
      concat hss = hs
      /\ query_chunks d chunks
         = Ok (map select_row (chunk_rows (fingerprints d) hss)).
Proof.
  unfold query_chunks.
  induction chunks as [| c chunks IH]; intros hs H; simpl in H.
  - injection H as <-. exists []. split; reflexivity.
  - destruct (mapM_app _ _ _ _ H) as (h1 & h2 & H1 & H2 & ->).
    destruct (IH _ H2) as (hss & <- & Hq).
    exists (h1 :: hss). split; [reflexivity |].
    cbn [mapM]. rewrite (SELECT_MULTIPLE_decoded _ _ _ H1). cbn [bind].
    destruct (mapM (SELECT_MULTIPLE d) chunks) as [rs | e]; [| discriminate].
    cbn [bind] in *. injection Hq as Hq.
    cbn [concat chunk_rows]. now rewrite map_app, Hq.
Qed.

Lemma query_chunks_is_ok (d : db) (chunks : list (list string)) :
  is_ok (query_chunks d chunks) = is_ok (mapM decode_hash (concat chunks)).
Proof.
  unfold query_chunks. induction chunks as [| c chunks IH]; [reflexivity |].
  cbn [mapM concat]. rewrite mapM_app_raise.
  unfold SELECT_MULTIPLE at 1.
  destruct (mapM decode_hash c); cbn [bind is_ok]; [| reflexivity].
  rewrite <- IH.
  destruct (mapM (SELECT_MULTIPLE d) chunks); reflexivity.
Qed.

(** C4.  One lookup per chunk, concatenated, against one lookup over all
    the hashes: either both raise (some hash is not hexadecimal), or both
    return, and then they return the same set of (hash, song_id, offset)
    rows; when the chunks do not overlap (no hash value twice), even the
    same rows with the same multiplicity, up to order. *)
Theorem query_chunks_complete :
  forall (d : db) (chunks : list (list string)),
    is_ok (query_chunks d chunks) = is_ok (SELECT_MULTIPLE d (concat chunks))
    /\ forall hs : list bytes,
         mapM decode_hash (concat chunks) = Ok hs ->
         exists rs rs' : list query_row,
           query_chunks d chunks = Ok rs
           /\ SELECT_MULTIPLE d (concat chunks) = Ok rs'
           /\ (forall row, In row rs <-> In row rs')
           /\ (NoDup hs -> Permutation rs rs').
Proof.
  intros d chunks. split.
  - rewrite query_chunks_is_ok. unfold SELECT_MULTIPLE.
    now destruct (mapM decode_hash (concat chunks)).
  - intros hs H.
    destruct (query_chunks_decoded d chunks hs H) as (hss & <- & Hq).
    exists (map select_row (chunk_rows (fingerprints d) hss)),
           (map select_row (filter (hash_in (concat hss)) (fingerprints d))).
    split; [exact Hq |].
    split; [now apply SELECT_MULTIPLE_decoded |].
    split.
    + intros row. rewrite !in_map_iff.
      split; intros (r & He & Hin); exists r; (split; [exact He |]);
        now apply chunk_rows_In.
    + intros Hnd. now apply Permutation_map, chunk_rows_perm.
Qed.

(** A store with fingerprints of both songs. *)
Example query_chunks_example :
  query_chunks
    (mkDb (songs two_songs)
          [mkFingerprint [xab] "A" 1; mkFingerprint [xcd] "B" 7;
           mkFingerprint [xef] "A" 9])
    [["EF"; "ab"]; []; ["cd"]]
  = Ok [("AB", "A", 1); ("EF", "A", 9); ("CD", "B", 7)].
Proof. reflexivity. Qed.

Lemma query_chunks_complete_witness :
  exists rs rs' : list query_row,
    query_chunks
      (mkDb (songs two_songs)
            [mkFingerprint [xab] "A" 1; mkFingerprint [xcd] "B" 7;
             mkFingerprint [xef] "A" 9])
      [["EF"; "ab"]; []; ["cd"]] = Ok rs
    /\ SELECT_MULTIPLE
         (mkDb (songs two_songs)
               [mkFingerprint [xab] "A" 1; mkFingerprint [xcd] "B" 7;
                mkFingerprint [xef] "A" 9])
         (concat [["EF"; "ab"]; []; ["cd"]]) = Ok rs'
    /\ (forall row, In row rs <-> In row rs')
    /\ (NoDup [[xef]; [xab]; [xcd]] -> Permutation rs rs').
Proof.
  apply (proj2 (query_chunks_complete
                  (mkDb (songs two_songs)
                        [mkFingerprint [xab] "A" 1; mkFingerprint [xcd] "B" 7;
                         mkFingerprint [xef] "A" 9])
                  [["EF"; "ab"]; []; ["cd"]])
               [[xef]; [xab]; [xcd]]).
  reflexivity.
Defined.

(** ** Referential integrity *)

Lemma insert_rows_no_orphans (ss : list song_row)
      (rows : list fingerprint_row) :
  forall t t',
    (forall r, In r t -> song_exists ss (fp_song_id r) = true) ->
    insert_rows ss t rows = Ok t' ->
    forall r, In r t' -> song_exists ss (fp_song_id r) = true.
Proof.
  induction rows as [| x rows IH]; intros t t' Ht H; simpl in H.
  - now injection H as <-.
  - destruct (conflict t x); [now apply (IH t) |].
    destruct (song_exists ss (fp_song_id x)) eqn:Hx; [| discriminate].
    apply (IH (t ++ [x])); [| exact H].
    intros r Hin. apply in_app_or in Hin.
    destruct Hin as [Hin | [<- | []]]; [now apply Ht | exact Hx].
Qed.

Lemma song_exists_app (ss ss' : list song_row) (id : uuid) :
  song_exists ss id = true -> song_exists (ss ++ ss') id = true.
Proof.
  unfold song_exists. rewrite existsb_app. now intros ->.
Qed.

Lemma song_exists_map_id (f : song_row -> song_row) (ss : list song_row)
      (id : uuid) :
  (forall s, song_id (f s) = song_id s) ->
  song_exists (map f ss) id = song_exists ss id.
Proof.
  intros Hf. unfold song_exists.
  induction ss as [| s ss IH]; simpl; [reflexivity |].
  now rewrite Hf, IH.
Qed.

(** Deleting songs with the cascade keeps every remaining fingerprint's
    song. *)
Lemma delete_where_no_orphans (d : db) (doomed : song_row -> bool) :
  no_orphans d -> no_orphans (delete_where d doomed).
Proof.
  unfold no_orphans, delete_where. cbn [songs fingerprints].
  intros H r Hin. apply filter_In in Hin. destruct Hin as [Hin Hkeep].
  apply negb_true_iff in Hkeep.
  specialize (H r Hin). apply song_exists_In in H.
  destruct H as (s & Hs & Hid).
  apply song_exists_In. exists s. split; [| exact Hid].
  apply filter_In. split; [exact Hs |].
  destruct (doomed s) eqn:Hd; [| reflexivity].
  exfalso. apply not_true_iff_false in Hkeep. apply Hkeep.
  apply existsb_exists. exists (song_id s). split.
  - apply in_map. apply filter_In. now split.
  - apply String.eqb_eq. now symmetry.
Qed.

(** The cascade: no fingerprint of a deleted song is left. *)
Lemma delete_where_cascade (d : db) (doomed : song_row -> bool)
      (s : song_row) (r : fingerprint_row) :
  In s (songs d) -> doomed s = true -> fp_song_id r = song_id s ->
  ~ In r (fingerprints (delete_where d doomed)).
Proof.
  intros Hs Hd Hid Hin. unfold delete_where in Hin. cbn [fingerprints] in Hin.
  apply filter_In in Hin. destruct Hin as [_ Hkeep].
  apply negb_true_iff, not_true_iff_false in Hkeep. apply Hkeep.
  apply existsb_exists. exists (song_id s). split.
  - apply in_map. apply filter_In. now split.
  - now apply String.eqb_eq.
Qed.

(** C9.  In a store without orphans every operation of the handler leaves
    a store without orphans: [insert_hashes] (a row that is inserted must
    reference a stored song, or the statement raises), [insert_song], the
    update of the fingerprinted flag and both deletes; and a delete takes
    with it every fingerprint of every song it deletes. *)
Theorem store_operations_keep_no_orphans :
  forall d : db,
    no_orphans d ->
    (forall (sid : uuid) (hashes : list (string * Z)) (d' : db),
        insert_hashes d sid hashes = Ok d' -> no_orphans d')
    /\ (forall (new_id : uuid) (name file_hash : string) (total : Z)
               (type : option string) (id : uuid) (d' : db),
           insert_song d new_id name file_hash total type = Ok (id, d') ->
           no_orphans d')
    /\ (forall id : uuid, no_orphans (UPDATE_SONG_FINGERPRINTED d id))
    /\ (no_orphans (DELETE_UNFINGERPRINTED d)
        /\ forall r, In r (fingerprints (DELETE_UNFINGERPRINTED d)) ->
                     forall s, In s (songs d) -> song_id s = fp_song_id r ->
                               fingerprinted s <> 0)
    /\ (forall ids : list uuid,
           no_orphans (DELETE_SONGS d ids)
           /\ forall r, In r (fingerprints (DELETE_SONGS d ids)) ->
                        ~ In (fp_song_id r) ids).
Proof.
  intros d Hd. split; [| split; [| split; [| split]]].
  - intros sid hashes d' H. unfold insert_hashes in H.
    destruct (INSERT_FINGERPRINT_inv _ _ _ H) as (rows & t & _ & Hi & ->).
    unfold no_orphans. cbn [songs fingerprints].
    exact (insert_rows_no_orphans _ _ _ _ Hd Hi).
  - intros new_id name file_hash total type id d' H.
    unfold insert_song, INSERT_SONG in H.
    destruct (hex_decode file_hash); [| discriminate].
    destruct (negb _); [discriminate |].
    destruct (song_exists (songs d) new_id); [discriminate |].
    injection H as _ <-.
    unfold no_orphans. cbn [songs fingerprints].
    intros r Hin. now apply song_exists_app, Hd.
  - intros id. unfold no_orphans, UPDATE_SONG_FINGERPRINTED.
    cbn [songs fingerprints]. intros r Hin.
    rewrite song_exists_map_id; [now apply Hd |].
    intros s. now destruct (String.eqb (song_id s) id).
  - split; [now apply delete_where_no_orphans |].
    intros r Hin s Hs Hid Hz.
    apply (delete_where_cascade d (fun s => fingerprinted s =? 0) s r);
      auto.
    now apply Z.eqb_eq.
  - intros ids. split; [now apply delete_where_no_orphans |].
    intros r Hin Hids.
    assert (Hr : In r (fingerprints d)).
    { unfold DELETE_SONGS, delete_where in Hin. cbn [fingerprints] in Hin.
      now apply filter_In in Hin. }
    apply Hd, song_exists_In in Hr. destruct Hr as (s & Hs & Hid).
    apply (delete_where_cascade
             d (fun s => existsb (String.eqb (song_id s)) ids) s r); auto.
    apply existsb_exists. exists (fp_song_id r). split; [exact Hids |].
    now apply String.eqb_eq.
Qed.

(** A store with one fingerprint per song, on which the operations run. *)
Lemma store_operations_keep_no_orphans_witness :
  no_orphans (mkDb (songs two_songs)
                   [mkFingerprint [xab] "A" 1; mkFingerprint [xcd] "B" 7])
  /\ no_orphans
       (DELETE_SONGS (mkDb (songs two_songs)
                           [mkFingerprint [xab] "A" 1; mkFingerprint [xcd] "B" 7])
                     ["A"])
  /\ no_orphans
       (DELETE_UNFINGERPRINTED
          (mkDb (songs two_songs)
                [mkFingerprint [xab] "A" 1; mkFingerprint [xcd] "B" 7])).
Proof.
  assert (H : no_orphans
                (mkDb (songs two_songs)
                      [mkFingerprint [xab] "A" 1; mkFingerprint [xcd] "B" 7])).
  { intros r [<- | [<- | []]]; reflexivity. }
  destruct (store_operations_keep_no_orphans _ H)
    as (_ & _ & _ & (Hu & _) & Hs).
  exact (conj H (conj (proj1 (Hs ["A"])) Hu)).
Defined.

Example delete_songs_cascades :
  DELETE_SONGS (mkDb (songs two_songs)
                     [mkFingerprint [xab] "A" 1; mkFingerprint [xcd] "B" 7])
               ["A"]
  = mkDb [mkSong "B" "second" 0 [] 1 None] [mkFingerprint [xcd] "B" 7].
Proof. reflexivity. Qed.

(** A fingerprint for a song that is not stored is refused. *)
Example insert_hashes_unknown_song :
  insert_hashes two_songs "C" [("ab", 1)] = Raise IntegrityError.
Proof. reflexivity. Qed.

(** ** The key of the fingerprints table *)

Lemma NoDup_snoc {A} (l : list A) (x : A) :
  NoDup l -> ~ In x l -> NoDup (l ++ [x]).
Proof.
  intros Hl Hx. apply (Permutation_NoDup (l := x :: l)).
  - apply Permutation_cons_append.
  - now constructor.
Qed.

(** Every insert keeps the hashes of the table pairwise different. *)
Lemma insert_rows_hash_unique (ss : list song_row)
      (rows : list fingerprint_row) :
  forall t t',
    hash_unique t -> insert_rows ss t rows = Ok t' -> hash_unique t'.
Proof.
  induction rows as [| r rows IH]; intros t t' Ht H; simpl in H.
  - now injection H as <-.
  - destruct (conflict t r) eqn:Hc; [now apply (IH t) |].
    destruct (song_exists ss (fp_song_id r)); [| discriminate].
    apply (IH (t ++ [r])); [| exact H].
    unfold hash_unique in *. rewrite map_app. simpl.
    apply NoDup_snoc; [exact Ht |].
    intros Hin. apply pk_conflict_In in Hin.
    rewrite conflict_pk in Hc. congruence.
Qed.

Lemma insert_hashes_hash_unique (d d' : db) (sid : uuid)
      (hashes : list (string * Z)) :
  hash_unique (fingerprints d) ->
  insert_hashes d sid hashes = Ok d' ->
  hash_unique (fingerprints d').
Proof.
  intros Hd H. unfold insert_hashes in H.
  destruct (INSERT_FINGERPRINT_inv _ _ _ H) as (rows & t & _ & Hi & ->).
  exact (insert_rows_hash_unique _ _ _ _ Hd Hi).
Qed.

(** With pairwise different hashes, the hash alone determines the row. *)
Lemma hash_unique_key (t : list fingerprint_row) (r1 r2 : fingerprint_row) :
  hash_unique t -> In r1 t -> In r2 t -> fp_hash r1 = fp_hash r2 -> r1 = r2.
Proof.
  unfold hash_unique. induction t as [| r t IH]; intros Hnd H1 H2 He;
    [contradiction |].
  simpl in Hnd. inversion Hnd as [| ? ? Hnotin Hnd']. subst.
  destruct H1 as [-> | H1], H2 as [-> | H2].
  - reflexivity.
  - exfalso. apply Hnotin. rewrite He. now apply in_map.
  - exfalso. apply Hnotin. rewrite <- He. now apply in_map.
  - now apply IH.
Qed.

(** Pairwise different hashes make the triples pairwise different. *)
Lemma hash_unique_triple_unique (t : list fingerprint_row) :
  hash_unique t -> triple_unique t.
Proof.
  unfold hash_unique, triple_unique.
  induction t as [| r t IH]; intros H; simpl; [constructor |].
  inversion H as [| ? ? Hnotin Hnd]. subst.
  constructor; [| now apply IH].
  intros Hin. apply Hnotin. apply in_map_iff in Hin.
  destruct Hin as (r' & He & Hr'). apply in_map_iff.
  exists r'. split; [congruence | exact Hr'].
Qed.

(** C1.  With [hash] as the PRIMARY KEY, the fingerprints table is keyed by
    the hash alone.  Song A stores the hash AB at offset 1; afterwards the
    same hash is dropped without an error both for song B and for another
    offset of song A, and the table still holds the one row. *)
Theorem fingerprints_keyed_by_hash_alone :
  exists d1 : db,
    insert_hashes two_songs "A" [("AB", 1)] = Ok d1
    /\ insert_hashes d1 "B" [("AB", 1)] = Ok d1
    /\ insert_hashes d1 "A" [("AB", 2)] = Ok d1
    /\ fingerprints d1 = [mkFingerprint [xab] "A" 1]
    /\ SELECT_MULTIPLE d1 ["AB"] = Ok [("AB", "A", 1)].
Proof.
  exists (mkDb (songs two_songs) [mkFingerprint [xab] "A" 1]).
  repeat split.
Qed.

(** Without the primary key the UNIQUE constraint alone would have let both
    rows in: neither agrees with the stored row on the whole triple. *)
Example uq_conflict_allows_shared_hash :
  uq_conflict [mkFingerprint [xab] "A" 1] (mkFingerprint [xab] "B" 1) = false
  /\ uq_conflict [mkFingerprint [xab] "A" 1] (mkFingerprint [xab] "A" 2) = false
  /\ pk_conflict [mkFingerprint [xab] "A" 1] (mkFingerprint [xab] "B" 1) = true.
Proof. repeat split. Qed.

(* ================================================================== *)
(** * Further properties of the code *)

(** ** Content hashes at the edges *)

Lemma hash_loop_stuck (d : bytes) (bs : Z) :
  d <> [] -> bs <= 0 ->
  forall (fuel : nat) (s : SHA1.t) (idx : Z),
    idx <= 0 -> hash_loop fuel s d idx bs = None.
Proof.
  intros Hd Hbs. induction fuel as [| f IH]; intros s idx Hidx;
    [reflexivity |].
  simpl. destruct (Z.ltb_spec idx (len d)) as [_ | Hge].
  - apply IH. lia.
  - exfalso. destruct d; [contradiction |]. unfold len in Hge.
    simpl in Hge. lia.
Qed.

(** X1.  With a block size of zero or below, [unique_bytes_hash] never
    leaves its loop on data that is not empty: the index does not move
    forward, whatever the fuel. *)
Theorem unique_bytes_hash_nonpositive_block_diverges :
  forall (d : bytes) (block_size : Z) (fuel : nat),
    d <> [] -> block_size <= 0 ->
    unique_bytes_hash fuel d block_size = None.
Proof.
  intros d bs fuel Hd Hbs. unfold unique_bytes_hash.
  now rewrite (hash_loop_stuck d bs Hd Hbs fuel SHA1.new 0) by lia.
Qed.

Lemma unique_bytes_hash_nonpositive_block_diverges_witness :
  unique_bytes_hash 1000 [x61; x62; x63] (-2) = None.
Proof.
  apply (unique_bytes_hash_nonpositive_block_diverges [x61; x62; x63] (-2) 1000).
  - discriminate.
  - discriminate.
Defined.





(** X3.  With a block size of zero the first read of [unique_hash] is
    empty and ends the loop: the result is the digest of no data at all,
    whatever the file holds. *)
Theorem unique_hash_zero_block_ignores_content :
  forall (E : External) (file_path : string) (content : bytes) (fuel : nat),
    file_content file_path = Some content ->
    unique_hash (S fuel) file_path 0
    = Ok (Some "DA39A3EE5E6B4B0D3255BFEF95601890AFD80709").
Proof.
  intros E path content fuel Hc. unfold unique_hash. rewrite Hc.
  cbn [file_hash_loop]. change (file_read content 0) with (@Ok bytes []).
  vm_compute. reflexivity.
Qed.

Lemma unique_hash_zero_block_ignores_content_witness :
  unique_hash 1 "a.raw" 0
  = Ok (Some "DA39A3EE5E6B4B0D3255BFEF95601890AFD80709").
Proof.
  apply (unique_hash_zero_block_ignores_content exact_host "a.raw" example_pcm 0).
  reflexivity.
Defined.

(** X4.  A file and a buffer with the same bytes get the same content
    hash from the decoder. *)
Theorem file_and_buffer_hash_agree :
  forall (E : External) (file_path : string) (content : bytes),
    file_content file_path = Some content ->
    unique_hash_default file_path = Ok (unique_bytes_hash_default content).
Proof.
  intros E path content Hc.
  rewrite (unique_hash_default_eq path content Hc).
  now rewrite unique_bytes_hash_default_eq.
Qed.

Lemma file_and_buffer_hash_agree_witness :
  unique_hash_default "a.raw" = Ok (unique_bytes_hash_default example_pcm).
Proof.
  apply (file_and_buffer_hash_agree exact_host "a.raw" example_pcm).
  reflexivity.
Defined.

(** ** The decoder at its edges *)

(** X5.  [read] does not pad: when the segment it converts has an odd
    number of raw bytes, [np.fromstring] raises ValueError and [read]
    with it, where [read_from_buffer] would have appended a zero byte. *)
Theorem read_odd_data_raises :
  forall (E : External) (file_name : string) (limit : option Z)
         (audio seg : AudioSegment),
    from_file file_name = Ok audio ->
    apply_limit audio limit = Ok seg ->
    len (raw_data seg) mod 2 <> 0 ->
    read file_name limit = Raise ValueError.
Proof.
  intros E file limit audio seg HF HL Hodd.
  unfold read, read_try. rewrite HF. cbn [bind]. rewrite HL. cbn [bind].
  unfold np_int16.
  destruct (Z.eqb_spec (len (raw_data seg) mod 2) 0); [contradiction |].
  reflexivity.
Qed.

Lemma read_odd_data_raises_witness :
  @read odd_host "odd.raw" None = Raise ValueError
  /\ @read_from_buffer odd_host odd_pcm 8000 1 1 None
     = Ok ([[513; 3]], 8000, unique_bytes_hash_default odd_pcm).
Proof.
  split; [| reflexivity].
  apply (read_odd_data_raises odd_host "odd.raw" None
                              (raw_segment odd_pcm 1 8000 1)
                              (raw_segment odd_pcm 1 8000 1));
    [reflexivity | reflexivity | discriminate].
Defined.

(** X6.  The wavio branch never returns.  When pydub raises
    [audioop.error], both decoders end in an exception: the one wavio
    raises, or AttributeError from [audiofile.frame_rate] on the array
    that wavio returned. *)
Theorem wavio_branch_never_returns :
  forall (E : External),
    (forall (buffer : bytes) (fr sw ch : Z) (limit : option Z)
            (whole : AudioSegment),
        from_raw buffer sw fr ch = Ok whole ->
        apply_limit whole limit = Raise AudioopError ->
        read_from_buffer buffer fr sw ch limit
        = match readwav_buffer buffer with
          | Ok _ => Raise AttributeError
          | Raise e => Raise e
          end)
    /\ (forall (file_name : string) (limit : option Z),
           (from_file file_name = Raise AudioopError
            \/ exists audio, from_file file_name = Ok audio
                             /\ apply_limit audio limit = Raise AudioopError) ->
           read file_name limit
           = match readwav_file file_name with
             | Ok _ => Raise AttributeError
             | Raise e => Raise e
             end).
Proof.
  intros E. split.
  - intros buffer fr sw ch limit whole HW HL.
    unfold read_from_buffer, read_from_buffer_try.
    rewrite HW. cbn [bind]. rewrite HL. cbn [bind].
    unfold wavio_fallback. now destruct (readwav_buffer buffer).
  - intros file limit [HF | (audio & HF & HL)];
      unfold read, read_try; rewrite HF; cbn [bind];
      [| rewrite HL; cbn [bind]];
      unfold wavio_fallback; now destruct (readwav_file file).
Qed.

Lemma wavio_branch_never_returns_witness :
  @read_from_buffer broken_slice_host odd_pcm 8000 1 1 (Some 1)
  = Raise AttributeError
  /\ @read broken_slice_host "odd.raw" (Some 1) = Raise LibraryError.
Proof.
  split.
  - apply (proj1 (wavio_branch_never_returns broken_slice_host)
                 odd_pcm 8000 1 1 (Some 1) (raw_segment odd_pcm 1 8000 1)).
    + reflexivity.
    + reflexivity.
  - apply (proj2 (wavio_branch_never_returns broken_slice_host)
                 "odd.raw" (Some 1)).
    right. exists (raw_segment odd_pcm 1 8000 1). split; reflexivity.
Defined.

Lemma split_channels_covers (seg : AudioSegment) (data : list Z)
      (i : nat) (x : Z) :
  0 < channels seg ->
  nth_error data i = Some x ->
  exists chan,
    nth_error (split_channels seg data) (i mod Z.to_nat (channels seg))
    = Some chan
    /\ nth_error chan (i / Z.to_nat (channels seg)) = Some x.
Proof.
  intros Hc Hx.
  set (c := Z.to_nat (channels seg)).
  assert (Hc' : (c <> 0)%nat) by (subst c; lia).
  assert (Hk : (i mod c < c)%nat) by now apply Nat.mod_upper_bound.
  destruct (nth_error (split_channels seg data) (i mod c)) as [chan |] eqn:Hn.
  - exists chan. split; [reflexivity |].
    rewrite (split_channels_nth _ _ _ _ Hn). fold c.
    rewrite <- Hx. f_equal.
    rewrite (Nat.div_mod_eq i c) at 3. lia.
  - exfalso. apply nth_error_None in Hn.
    rewrite split_channels_length in Hn. fold c in Hn. lia.
Qed.

(** X7.  De-interleaving loses nothing: once the segment is built from
    the buffer and the limit has left a segment, [read_from_buffer] returns,
    and sample [i] of the converted stream is sample [i / c] of channel
    [i mod c] of what it returns, for a positive channel count [c]. *)
Theorem read_from_buffer_keeps_every_sample :
  forall (E : External) (buffer : bytes) (fr sw ch : Z) (limit : option Z)
         (whole seg : AudioSegment),
    0 < ch ->
    from_raw buffer sw fr ch = Ok whole ->
    apply_limit whole limit = Ok seg ->
    exists (conv : AudioSegment) (chans : list (list Z)) (rate : Z)
           (h : string),
      pad_odd seg sw fr ch = Ok conv
      /\ read_from_buffer buffer fr sw ch limit = Ok (chans, rate, h)
      /\ forall (i : nat) (x : Z),
           nth_error (int16_samples (raw_data conv)) i = Some x ->
           exists chan,
             nth_error chans (i mod Z.to_nat ch) = Some chan
             /\ nth_error chan (i / Z.to_nat ch) = Some x.
Proof.
  intros E buffer fr sw ch limit whole seg Hch HW HL.
  destruct (pad_odd_total seg sw fr ch) as [conv HP].
  rewrite (read_from_buffer_after_limit _ _ _ _ _ _ _ _ HW HL HP).
  exists conv. do 3 eexists. split; [exact HP |]. split; [reflexivity |].
  intros i x Hx.
  pose proof (from_raw_inv _ _ _ _ _ HW) as Hwhole.
  destruct (raw_segment_params buffer sw fr ch) as [Hc0 Hf0].
  rewrite <- Hwhole in Hc0, Hf0.
  destruct (apply_limit_params _ _ _ HL) as [Hc1 Hf1].
  destruct (pad_odd_params seg conv sw fr ch HP) as [Hc Hf];
    [congruence .. |].
  assert (Hpos : 0 < channels conv) by lia.
  pose proof (split_channels_covers _ _ i x Hpos Hx) as H.
  now rewrite Hc in H.
Qed.

Lemma read_from_buffer_keeps_every_sample_witness :
  exists (conv : AudioSegment) (chans : list (list Z)) (rate : Z)
         (h : string),
    pad_odd (raw_segment example_pcm 2 48000 2) 2 48000 2 = Ok conv
    /\ read_from_buffer example_pcm 48000 2 2 None = Ok (chans, rate, h)
    /\ forall (i : nat) (x : Z),
         nth_error (int16_samples (raw_data conv)) i = Some x ->
         exists chan,
           nth_error chans (i mod Z.to_nat 2) = Some chan
           /\ nth_error chan (i / Z.to_nat 2) = Some x.
Proof.
  apply (read_from_buffer_keeps_every_sample
           exact_host example_pcm 48000 2 2 None
           (raw_segment example_pcm 2 48000 2)
           (raw_segment example_pcm 2 48000 2));
    [reflexivity | reflexivity | reflexivity].
Defined.

(** ** The name of an audio file *)

Lemma rfind_from_app (c : ascii) (l1 l2 : list ascii) :
  forall i last,
    rfind_from c (l1 ++ l2) i last
    = rfind_from c l2 (i + len l1) (rfind_from c l1 i last).
Proof.
  induction l1 as [| a l1 IH]; intros i last; simpl.
  - unfold len. simpl. now rewrite Z.add_0_r.
  - rewrite IH. f_equal. unfold len. simpl length. lia.
Qed.

Lemma rfind_from_absent (c : ascii) (l : list ascii) :
  ~ In c l -> forall i last, rfind_from c l i last = last.
Proof.
  induction l as [| a l IH]; intros Hnot i last; simpl; [reflexivity |].
  destruct (Ascii.eqb_spec a c) as [-> | _].
  - exfalso. apply Hnot. now left.
  - apply IH. intros H. apply Hnot. now right.
Qed.

(** The last occurrence, when nothing after it is the character. *)
Lemma rfind_last (c : ascii) (l1 l2 : list ascii) :
  ~ In c l2 -> rfind (l1 ++ c :: l2) c = len l1.
Proof.
  intros Hnot. unfold rfind. rewrite rfind_from_app. simpl.
  rewrite Ascii.eqb_refl. now apply rfind_from_absent.
Qed.

Lemma rfind_absent (c : ascii) (l : list ascii) :
  ~ In c l -> rfind l c = -1.
Proof. intros H. unfold rfind. now apply rfind_from_absent. Qed.

Lemma skipn_len_app {A} (l1 l2 : list A) :
  skipn (Z.to_nat (len l1)) (l1 ++ l2) = l2.
Proof.
  unfold len. rewrite Nat2Z.id, skipn_app, Nat.sub_diag, skipn_all. reflexivity.
Qed.

Lemma firstn_len_app {A} (l1 l2 : list A) :
  firstn (Z.to_nat (len l1)) (l1 ++ l2) = l1.
Proof.
  unfold len. rewrite Nat2Z.id, firstn_app, Nat.sub_diag, firstn_all.
  simpl. now rewrite app_nil_r.
Qed.

Lemma basename_after_slash (dir rest : list ascii) :
  ~ In "/"%char rest -> basename (dir ++ "/"%char :: rest) = rest.
Proof.
  intros Hnot. unfold basename. rewrite rfind_last by exact Hnot.
  replace (dir ++ "/"%char :: rest) with ((dir ++ ["/"%char]) ++ rest)
    by now rewrite <- app_assoc.
  replace (len dir + 1) with (len (dir ++ ["/"%char]))
    by (unfold len; rewrite length_app; simpl; lia).
  apply skipn_len_app.
Qed.

Lemma basename_no_slash (p : list ascii) :
  ~ In "/"%char p -> basename p = p.
Proof. intros H. unfold basename. now rewrite rfind_absent. Qed.

Lemma splitext_name_ext (name ext : list ascii) :
  ~ In "/"%char name -> ~ In "/"%char ext -> ~ In "."%char ext ->
  (exists a, In a name /\ a <> "."%char) ->
  splitext (name ++ "."%char :: ext) = (name, "."%char :: ext).
Proof.
  intros Hn He Hd (a & Ha & Hdot). unfold splitext.
  rewrite (rfind_absent "/"%char).
  2:{ intros H. apply in_app_or in H.
      destruct H as [H | [H | H]]; [auto | discriminate | auto]. }
  rewrite rfind_last by exact Hd.
  pose proof (len_nonneg name).
  destruct (Z.ltb_spec (-1) (len name)); [| lia].
  assert (Hs : py_slice (name ++ "."%char :: ext) (-1 + 1) (len name) = name).
  { unfold py_slice, py_clamp. simpl (-1 + 1).
    destruct (Z.ltb_spec 0 0); [lia |].
    destruct (Z.ltb_spec (len name) 0); [lia |].
    assert (len name <= len (name ++ "."%char :: ext))
      by (unfold len; rewrite length_app; lia).
    rewrite (Z.min_l 0) by apply len_nonneg.
    rewrite (Z.min_l (len name)) by assumption.
    rewrite Z.sub_0_r. simpl skipn. apply firstn_len_app. }
  rewrite Hs.
  assert (Hex : existsb (fun a => negb (Ascii.eqb a "."%char)) name = true).
  { apply existsb_exists. exists a. split; [exact Ha |].
    now destruct (Ascii.eqb_spec a "."%char). }
  rewrite Hex. simpl andb. cbv iota.
  now rewrite firstn_len_app, skipn_len_app.
Qed.

(** X8.  For a path [dir/name.ext], with or without the directory part,
    [get_audio_name_from_path] returns [name]: the name may hold dots but
    no slash, must not consist of dots alone, and the extension holds
    neither dot nor slash. *)
Theorem get_audio_name_from_path_strips_dir_and_ext :
  forall (dir name ext : list ascii),
    ~ In "/"%char name -> ~ In "/"%char ext -> ~ In "."%char ext ->
    (exists a, In a name /\ a <> "."%char) ->
    get_audio_name_from_path
      (string_of_list_ascii (dir ++ "/"%char :: name ++ "."%char :: ext))
    = string_of_list_ascii name
    /\ get_audio_name_from_path
         (string_of_list_ascii (name ++ "."%char :: ext))
       = string_of_list_ascii name.
Proof.
  intros dir name ext Hn He Hd Hex.
  assert (Hrest : ~ In "/"%char (name ++ "."%char :: ext)).
  { intros H. apply in_app_or in H.
    destruct H as [H | [H | H]]; [auto | discriminate | auto]. }
  unfold get_audio_name_from_path. split;
    rewrite list_ascii_of_string_of_list_ascii.
  - rewrite basename_after_slash by exact Hrest.
    now rewrite splitext_name_ext.
  - rewrite basename_no_slash by exact Hrest.
    now rewrite splitext_name_ext.
Qed.

Example get_audio_name_examples :
  get_audio_name_from_path "mp3/Brad-Sucks--Total-Breakdown.mp3"
  = "Brad-Sucks--Total-Breakdown"
  /\ get_audio_name_from_path "a/b.c/song" = "song"
  /\ get_audio_name_from_path "a/.hidden" = ".hidden"
  /\ get_audio_name_from_path "a/" = EmptyString.
Proof. repeat split. Qed.

Lemma get_audio_name_from_path_strips_dir_and_ext_witness :
  get_audio_name_from_path "mp3/my.song.mp3" = "my.song"
  /\ get_audio_name_from_path "my.song.mp3" = "my.song".
Proof.
  apply (get_audio_name_from_path_strips_dir_and_ext
           (list_ascii_of_string "mp3") (list_ascii_of_string "my.song")
           (list_ascii_of_string "mp3")).
  - simpl. intuition discriminate.
  - simpl. intuition discriminate.
  - simpl. intuition discriminate.
  - exists "m"%char. split; [now left | discriminate].
Defined.

(** ** Hexadecimal text *)

Lemma Z_range_forallb (P : Z -> bool) (k : nat) :
  forallb P (map Z.of_nat (seq 0 k)) = true ->
  forall n, 0 <= n < Z.of_nat k -> P n = true.
Proof.
  intros H n Hn. rewrite forallb_forall in H. apply H.
  apply in_map_iff. exists (Z.to_nat n). split; [lia |].
  apply in_seq. lia.
Qed.

Lemma hex_value_digit (u : bool) (n : Z) :
  0 <= n < 16 -> hex_value (hex_digit u n) = Some n.
Proof.
  intros Hn.
  pose (P := fun n => match hex_value (hex_digit u n) with
                      | Some m => m =? n
                      | None => false
                      end).
  assert (H : P n = true).
  { apply (Z_range_forallb P 16); [| exact Hn]. now destruct u. }
  unfold P in H. destruct (hex_value (hex_digit u n)); [| discriminate].
  apply Z.eqb_eq in H. now subst.
Qed.

Lemma upper_hex_digit (n : Z) :
  0 <= n < 16 -> upper_char (hex_digit false n) = hex_digit true n.
Proof.
  intros Hn. apply Ascii.eqb_eq.
  apply (Z_range_forallb
           (fun n => Ascii.eqb (upper_char (hex_digit false n))
                               (hex_digit true n)) 16);
    [reflexivity | exact Hn].
Qed.

Lemma byte_of_Z_val (b : byte) : byte_of_Z (byte_val b) = b.
Proof.
  unfold byte_of_Z. pose proof (byte_val_range b) as H.
  rewrite Z.mod_small by exact H.
  unfold byte_val. rewrite N2Z.id. now rewrite Byte.of_to_N.
Qed.

Lemma byte_val_of_Z (z : Z) : 0 <= z < 256 -> byte_val (byte_of_Z z) = z.
Proof.
  intros Hz. unfold byte_of_Z, byte_val. rewrite Z.mod_small by exact Hz.
  destruct (Byte.of_N (Z.to_N z)) as [b |] eqn:Hb.
  - apply Byte.to_of_N in Hb. rewrite Hb. lia.
  - apply Byte.of_N_None_iff in Hb. lia.
Qed.

(** Decoding undoes encoding, in either case of the digits. *)
Lemma hex_decode_encode (u : bool) (bs : bytes) :
  hex_decode (hex_encode u bs) = Some bs.
Proof.
  induction bs as [| b bs IH]; [reflexivity |].
  cbn [hex_encode hex_decode]. rewrite IH.
  pose proof (byte_val_range b) as Hb.
  rewrite !hex_value_digit.
  - rewrite <- Z.div_mod by lia. now rewrite byte_of_Z_val.
  - apply Z.mod_pos_bound. lia.
  - split; [apply Z.div_pos; lia | apply Z.div_lt_upper_bound; lia].
Qed.

Lemma upper_hex_encode (bs : bytes) :
  upper (hex_encode false bs) = hex_encode true bs.
Proof.
  induction bs as [| b bs IH]; [reflexivity |].
  cbn [hex_encode upper]. rewrite IH.
  pose proof (byte_val_range b) as Hb.
  rewrite !upper_hex_digit; [reflexivity | |].
  - apply Z.mod_pos_bound. lia.
  - split; [apply Z.div_pos; lia | apply Z.div_lt_upper_bound; lia].
Qed.

Lemma hex_value_upper_char (c : ascii) :
  hex_value (upper_char c) = hex_value c.
Proof. destruct c as [[] [] [] [] [] [] [] []]; reflexivity. Qed.

(** A digit's value is below sixteen, and the upper-case digit of that
    value is the digit in upper case. *)
Lemma hex_value_inv (c : ascii) (a : Z) :
  hex_value c = Some a -> 0 <= a < 16 /\ hex_digit true a = upper_char c.
Proof.
  assert (H : match hex_value c with
              | Some a => (0 <=? a) && (a <? 16)
                          && Ascii.eqb (hex_digit true a) (upper_char c)
              | None => true
              end = true)
    by (destruct c as [[] [] [] [] [] [] [] []]; reflexivity).
  intros Hc. rewrite Hc in H.
  apply andb_prop in H. destruct H as [H Hd].
  apply andb_prop in H. destruct H as [Hlo Hhi].
  apply Ascii.eqb_eq in Hd. split; [lia | exact Hd].
Qed.

Lemma nibbles_div_mod (a b : Z) :
  0 <= a < 16 -> 0 <= b < 16 ->
  (16 * a + b) / 16 = a /\ (16 * a + b) mod 16 = b.
Proof.
  intros Ha Hb. split.
  - rewrite (Z.mul_comm 16 a), Z.div_add_l by lia.
    rewrite Z.div_small by lia. lia.
  - rewrite (Z.mul_comm 16 a), Z.add_comm, Z.mod_add by lia.
    apply Z.mod_small. lia.
Qed.

(** Induction two characters at a time. *)
Lemma string_pairs_ind (P : string -> Prop) :
  P EmptyString -> (forall c, P (String c EmptyString)) ->
  (forall c1 c2 s, P s -> P (String c1 (String c2 s))) ->
  forall s, P s.
Proof.
  intros H0 H1 H2 s.
  assert (H : P s /\ forall c, P (String c s)).
  { induction s as [| c s [IH1 IH2]]; split; auto. }
  apply H.
Qed.

Lemma hex_decode_upper (s : string) : hex_decode (upper s) = hex_decode s.
Proof.
  induction s as [| c | c1 c2 s IH] using string_pairs_ind;
    [reflexivity | reflexivity |].
  cbn [upper hex_decode]. now rewrite !hex_value_upper_char, IH.
Qed.

Lemma hex_decode_pair (c1 c2 : ascii) (s : string) :
  hex_decode (String c1 (String c2 s))
  = match hex_value c1, hex_value c2, hex_decode s with
    | Some h, Some l, Some bs => Some (byte_of_Z (16 * h + l) :: bs)
    | _, _, _ => None
    end.
Proof. reflexivity. Qed.

(** Text that decodes is, in upper case, the upper-case encoding of what
    it decodes to. *)
Lemma hex_encode_decode (s : string) :
  forall h, hex_decode s = Some h -> hex_encode true h = upper s.
Proof.
  induction s as [| c | c1 c2 s IH] using string_pairs_ind; intros h H.
  - injection H as <-. reflexivity.
  - discriminate.
  - rewrite hex_decode_pair in H.
    destruct (hex_value c1) as [a |] eqn:H1; [| discriminate].
    destruct (hex_value c2) as [b |] eqn:H2; [| discriminate].
    destruct (hex_decode s) as [bs |]; [| discriminate].
    assert (Hh : h = byte_of_Z (16 * a + b) :: bs) by congruence.
    subst h. clear H.
    apply hex_value_inv in H1, H2.
    destruct H1 as [Ha Ea], H2 as [Hb Eb].
    cbn [hex_encode upper]. rewrite (IH bs eq_refl).
    rewrite byte_val_of_Z by lia.
    destruct (nibbles_div_mod a b Ha Hb) as [-> ->].
    now rewrite Ea, Eb.
Qed.

(** ** Lookups and inserts by hash text *)

Lemma upper_char_idem (c : ascii) : upper_char (upper_char c) = upper_char c.
Proof. destruct c as [[] [] [] [] [] [] [] []]; reflexivity. Qed.

Lemma upper_idem (s : string) : upper (upper s) = upper s.
Proof.
  induction s as [| c s IH]; [reflexivity |].
  cbn [upper]. now rewrite upper_char_idem, IH.
Qed.

Lemma mapM_In {A B} (f : A -> result B) (l : list A) (bs : list B) :
  mapM f l = Ok bs ->
  length bs = length l
  /\ (forall b, In b bs -> exists a, In a l /\ f a = Ok b)
  /\ (forall a, In a l -> exists b, In b bs /\ f a = Ok b).
Proof.
  revert bs. induction l as [| a l IH]; intros bs H; simpl in H.
  - injection H as <-. repeat split; intros ? [].
  - destruct (f a) as [b |] eqn:Hf; [| discriminate]. cbn [bind] in H.
    destruct (mapM f l) as [bs' |]; [| discriminate]. cbn [bind] in H.
    injection H as <-. destruct (IH bs' eq_refl) as (Hlen & Hb & Ha).
    repeat split.
    + simpl. now rewrite Hlen.
    + intros b' [<- | Hin].
      * exists a. split; [now left | exact Hf].
      * destruct (Hb b' Hin) as (a' & Ha' & Hf'). exists a'.
        split; [now right | exact Hf'].
    + intros a' [<- | Hin].
      * exists b. split; [now left | exact Hf].
      * destruct (Ha a' Hin) as (b' & Hb' & Hf'). exists b'.
        split; [now right | exact Hf'].
Qed.

Lemma decode_hash_Ok (q : string) (h : bytes) :
  decode_hash q = Ok h <-> hex_decode q = Some h.
Proof.
  unfold decode_hash. destruct (hex_decode q); split; intros H;
    try discriminate; congruence.
Qed.

(** X9.  What SELECT_MULTIPLE returns is exactly the stored fingerprints
    whose hash one of the queried texts decodes to, each with its hash in
    upper-case hexadecimal, which decodes back to the stored bytes. *)
Theorem SELECT_MULTIPLE_rows :
  forall (d : db) (hashes : list string) (rows : list query_row),
    SELECT_MULTIPLE d hashes = Ok rows ->
    forall (text : string) (sid : uuid) (offset : Z),
      In (text, sid, offset) rows
      <-> exists (h : bytes) (q : string),
            text = hex_encode true h
            /\ upper text = text
            /\ hex_decode text = Some h
            /\ In (mkFingerprint h sid offset) (fingerprints d)
            /\ In q hashes /\ hex_decode q = Some h.
Proof.
  intros d hashes rows H text sid offset.
  unfold SELECT_MULTIPLE in H.
  destruct (mapM decode_hash hashes) as [hs |] eqn:Hm; [| discriminate].
  cbn [bind] in H. injection H as <-.
  destruct (mapM_In _ _ _ Hm) as (_ & Hb & Ha).
  rewrite in_map_iff. split.
  - intros (r & Hr & Hin). apply filter_In in Hin.
    destruct Hin as [Hin Hh]. apply hash_in_In in Hh.
    destruct (Hb _ Hh) as (q & Hq & Hd). apply decode_hash_Ok in Hd.
    unfold select_row in Hr. injection Hr as <- <- <-.
    exists (fp_hash r), q. rewrite upper_hex_encode.
    repeat split; auto.
    + rewrite <- upper_hex_encode. apply upper_idem.
    + apply hex_decode_encode.
    + now destruct r.
  - intros (h & q & -> & _ & _ & Hin & Hq & Hd).
    exists (mkFingerprint h sid offset). split.
    + unfold select_row. simpl. now rewrite upper_hex_encode.
    + apply filter_In. split; [exact Hin |].
      apply hash_in_In. simpl.
      apply decode_hash_Ok in Hd.
      destruct (Ha _ Hq) as (h' & Hh' & Hd'). congruence.
Qed.

Lemma SELECT_MULTIPLE_rows_witness :
  In ("AB", "A", 1)
     [("AB", "A", 1); ("CD", "B", 7)]
  <-> exists (h : bytes) (q : string),
        "AB" = hex_encode true h
        /\ upper "AB" = "AB"
        /\ hex_decode "AB" = Some h
        /\ In (mkFingerprint h "A" 1)
              (fingerprints
                 (mkDb (songs two_songs)
                       [mkFingerprint [xab] "A" 1; mkFingerprint [xcd] "B" 7]))
        /\ In q ["cd"; "ab"] /\ hex_decode q = Some h.
Proof.
  apply (SELECT_MULTIPLE_rows
           (mkDb (songs two_songs)
                 [mkFingerprint [xab] "A" 1; mkFingerprint [xcd] "B" 7])
           ["cd"; "ab"] [("AB", "A", 1); ("CD", "B", 7)]).
  reflexivity.
Defined.

Lemma fingerprint_value_upper (sid : uuid) (hsh : string) (offset : Z) :
  fingerprint_value (sid, upper hsh, offset)
  = fingerprint_value (sid, hsh, offset).
Proof. unfold fingerprint_value. now rewrite hex_decode_upper. Qed.

Lemma decode_hash_upper (hsh : string) :
  decode_hash (upper hsh) = decode_hash hsh.
Proof. unfold decode_hash. now rewrite hex_decode_upper. Qed.

(** X10.  The case of the hexadecimal digits does not matter: upper-casing
    the hash texts changes neither what [insert_hashes] does nor what
    SELECT and SELECT_MULTIPLE return. *)
Theorem hash_text_case_insensitive :
  forall (d : db) (sid : uuid) (hashes : list (string * Z))
         (queried : list string) (hsh : string),
    insert_hashes d sid (map (fun p => (upper (fst p), snd p)) hashes)
    = insert_hashes d sid hashes
    /\ SELECT_MULTIPLE d (map upper queried) = SELECT_MULTIPLE d queried
    /\ SELECT d (upper hsh) = SELECT d hsh.
Proof.
  intros d sid hashes queried hsh. split; [| split].
  - unfold insert_hashes, INSERT_FINGERPRINT. f_equal.
    induction hashes as [| [h o] hashes IH]; [reflexivity |].
    cbn [map mapM fst snd]. now rewrite fingerprint_value_upper, IH.
  - unfold SELECT_MULTIPLE. f_equal.
    induction queried as [| q queried IH]; [reflexivity |].
    cbn [map mapM]. now rewrite decode_hash_upper, IH.
  - unfold SELECT. now rewrite decode_hash_upper.
Qed.

Lemma filter_none {A} (f : A -> bool) (l : list A) :
  (forall x, In x l -> f x = false) -> filter f l = [].
Proof.
  induction l as [| a l IH]; intros H; simpl; [reflexivity |].
  rewrite (H a) by now left. apply IH. intros x Hx. apply H. now right.
Qed.

(** X11.  Insert, then look up: a fingerprint with a hash that is not yet
    stored, for a stored song, is inserted, and the lookups of that hash
    then return this fingerprint and nothing else; the count has grown by
    one. *)
Theorem insert_hashes_then_lookup :
  forall (d : db) (sid : uuid) (hsh : string) (h : bytes) (offset : Z),
    hex_decode hsh = Some h ->
    is_int4 offset = true ->
    song_exists (songs d) sid = true ->
    ~ In h (map fp_hash (fingerprints d)) ->
    exists d' : db,
      insert_hashes d sid [(hsh, offset)] = Ok d'
      /\ SELECT_MULTIPLE d' [hsh] = Ok [(upper hsh, sid, offset)]
      /\ SELECT d' hsh = Ok [(sid, offset)]
      /\ SELECT_NUM_FINGERPRINTS d' = SELECT_NUM_FINGERPRINTS d + 1.
Proof.
  intros d sid hsh h offset Hh Ho Hs Hnew.
  set (r := mkFingerprint h sid offset).
  exists (mkDb (songs d) (fingerprints d ++ [r])).
  assert (Hc : conflict (fingerprints d) r = false).
  { rewrite conflict_pk. destruct (pk_conflict (fingerprints d) r) eqn:Hp;
      [| reflexivity].
    apply pk_conflict_In in Hp. contradiction. }
  assert (Hold : forall x, In x (fingerprints d) ->
                           bytes_eqb (fp_hash x) h = false).
  { intros x Hx. destruct (bytes_eqb (fp_hash x) h) eqn:He; [| reflexivity].
    apply bytes_eqb_eq in He. exfalso. apply Hnew. rewrite <- He.
    now apply in_map. }
  split; [| split; [| split]].
  - unfold insert_hashes, INSERT_FINGERPRINT. cbn [map mapM fingerprint_value].
    rewrite Hh, Ho. cbn [bind insert_rows]. fold r. rewrite Hc.
    change (fp_song_id r) with sid. now rewrite Hs.
  - unfold SELECT_MULTIPLE. cbn [mapM]. unfold decode_hash at 1.
    rewrite Hh. cbn [bind fingerprints]. rewrite filter_app.
    rewrite filter_none.
    + cbn [filter app]. unfold hash_in. cbn [existsb fp_hash r].
      rewrite bytes_eqb_refl. cbn [orb map]. unfold select_row.
      cbn [fp_hash fp_song_id fp_offset r].
      now rewrite upper_hex_encode, (hex_encode_decode hsh h Hh).
    + intros x Hx. unfold hash_in. cbn [existsb]. rewrite (Hold x Hx).
      reflexivity.
  - unfold SELECT, decode_hash. rewrite Hh. cbn [bind fingerprints].
    rewrite filter_app, (filter_none _ _ Hold).
    cbn [filter app fp_hash r]. now rewrite bytes_eqb_refl.
  - unfold SELECT_NUM_FINGERPRINTS, len. cbn [fingerprints].
    rewrite length_app. simpl. lia.
Qed.

Lemma insert_hashes_then_lookup_witness :
  exists d' : db,
    insert_hashes two_songs "A" [("ab", 5)] = Ok d'
    /\ SELECT_MULTIPLE d' ["ab"] = Ok [(upper "ab", "A", 5)]
    /\ SELECT d' "ab" = Ok [("A", 5)]
    /\ SELECT_NUM_FINGERPRINTS d' = SELECT_NUM_FINGERPRINTS two_songs + 1.
Proof.
  apply (insert_hashes_then_lookup two_songs "A" "ab" [xab] 5);
    try reflexivity.
  intros [].
Defined.

(** ** What an insert adds *)

Lemma insert_rows_added (ss : list song_row) (rows : list fingerprint_row) :
  forall t t',
    insert_rows ss t rows = Ok t' ->
    exists added,
      t' = t ++ added
      /\ (length added <= length rows)%nat
      /\ incl added rows.
Proof.
  induction rows as [| r rows IH]; intros t t' H; simpl in H.
  - injection H as <-. exists []. rewrite app_nil_r.
    repeat split; [apply le_n | apply incl_refl].
  - destruct (conflict t r).
    + destruct (IH _ _ H) as (added & -> & Hlen & Hincl).
      exists added. repeat split; [simpl; lia | now apply incl_tl].
    + destruct (song_exists ss (fp_song_id r)); [| discriminate].
      destruct (IH _ _ H) as (added & -> & Hlen & Hincl).
      exists (r :: added). rewrite <- app_assoc.
      repeat split; [simpl; lia |].
      intros x [<- | Hx]; [now left | right; now apply Hincl].
Qed.

(** X12.  [insert_hashes] only appends: the songs and the stored
    fingerprints stay as they are, in their order; at most one row per
    given pair is added, and every added row belongs to the given song and
    comes from one of the given pairs. *)
Theorem insert_hashes_appends :
  forall (d d' : db) (sid : uuid) (hashes : list (string * Z)),
    insert_hashes d sid hashes = Ok d' ->
    songs d' = songs d
    /\ exists added : list fingerprint_row,
         fingerprints d' = fingerprints d ++ added
         /\ (length added <= length hashes)%nat
         /\ forall r, In r added ->
                      fp_song_id r = sid
                      /\ is_int4 (fp_offset r) = true
                      /\ exists hsh, In (hsh, fp_offset r) hashes
                                     /\ hex_decode hsh = Some (fp_hash r).
Proof.
  intros d d' sid hashes H. unfold insert_hashes in H.
  destruct (INSERT_FINGERPRINT_inv _ _ _ H) as (rows & t & Hm & Hi & ->).
  split; [reflexivity |].
  destruct (insert_rows_added _ _ _ _ Hi) as (added & -> & Hlen & Hincl).
  destruct (mapM_In _ _ _ Hm) as (Hl & Hb & _).
  exists added. split; [reflexivity |]. split.
  - rewrite Hl, length_map in Hlen. exact Hlen.
  - intros r Hr. destruct (Hb r (Hincl r Hr)) as (v & Hv & Hf).
    apply in_map_iff in Hv. destruct Hv as ([hsh o] & <- & Hin).
    unfold fingerprint_value in Hf.
    destruct (hex_decode hsh) as [h |] eqn:Hh; [| discriminate].
    destruct (is_int4 o) eqn:Ho; [| discriminate].
    injection Hf as <-. simpl. repeat split; auto.
    exists hsh. now split.
Qed.

Lemma insert_hashes_appends_witness :
  songs (mkDb (songs two_songs) [mkFingerprint [xab] "A" 1])
  = songs two_songs
  /\ exists added : list fingerprint_row,
       fingerprints (mkDb (songs two_songs) [mkFingerprint [xab] "A" 1])
       = fingerprints two_songs ++ added
       /\ (length added <= length [("ab", 1); ("AB", 3)])%nat
       /\ forall r, In r added ->
                    fp_song_id r = "A"
                    /\ is_int4 (fp_offset r) = true
                    /\ exists hsh, In (hsh, fp_offset r) [("ab", 1); ("AB", 3)]
                                   /\ hex_decode hsh = Some (fp_hash r).
Proof.
  apply (insert_hashes_appends two_songs
           (mkDb (songs two_songs) [mkFingerprint [xab] "A" 1])
           "A" [("ab", 1); ("AB", 3)]).
  reflexivity.
Defined.

(** Dropping rows keeps a key a key. *)
Lemma filter_keeps_key {Row Key} (key : Row -> Key) (keep : Row -> bool) :
  forall rows : list Row,
    NoDup (map key rows) -> NoDup (map key (filter keep rows)).
Proof.
  induction rows as [| row rows IH]; intros Hkey; [constructor |].
  apply NoDup_cons_iff in Hkey. destruct Hkey as [Hfresh Hrest].
  cbn [filter]. destruct (keep row); [| now apply IH].
  cbn [map]. apply NoDup_cons; [| now apply IH].
  intros Hin. apply Hfresh. apply in_map_iff in Hin.
  destruct Hin as (other & Hsame & Hkept). apply filter_In in Hkept.
  apply in_map_iff. exists other. tauto.
Qed.

Lemma hash_unique_one_row (t : list fingerprint_row) (h : bytes) :
  hash_unique t ->
  (length (filter (fun r => bytes_eqb (fp_hash r) h) t) <= 1)%nat.
Proof.
  unfold hash_unique. induction t as [| r t IH]; intros H; simpl; [lia |].
  inversion H as [| ? ? Hnotin Hnd]. subst.
  destruct (bytes_eqb (fp_hash r) h) eqn:He; [| now apply IH].
  apply bytes_eqb_eq in He. rewrite filter_none; [simpl; lia |].
  intros x Hx. destruct (bytes_eqb (fp_hash x) h) eqn:Hx'; [| reflexivity].
  apply bytes_eqb_eq in Hx'. exfalso. apply Hnotin.
  rewrite He, <- Hx'. now apply in_map.
Qed.

(** X13.  The primary key on [hash] is kept by everything that changes
    the fingerprints table, inserts and cascading deletes alike; so SELECT
    on one hash never returns more than one (song_id, offset) row. *)
Theorem hash_unique_invariant :
  forall d : db,
    hash_unique (fingerprints d) ->
    (forall (sid : uuid) (hashes : list (string * Z)) (d' : db),
        insert_hashes d sid hashes = Ok d' ->
        hash_unique (fingerprints d'))
    /\ (forall ids : list uuid,
           hash_unique (fingerprints (DELETE_SONGS d ids)))
    /\ hash_unique (fingerprints (DELETE_UNFINGERPRINTED d))
    /\ (forall (hsh : string) (rows : list (uuid * Z)),
           SELECT d hsh = Ok rows -> (length rows <= 1)%nat).
Proof.
  intros d Hd. split; [| split; [| split]].
  - intros sid hashes d' H. exact (insert_hashes_hash_unique _ _ _ _ Hd H).
  - intros ids. unfold DELETE_SONGS, delete_where. cbn [fingerprints].
    now apply filter_keeps_key.
  - unfold DELETE_UNFINGERPRINTED, delete_where. cbn [fingerprints].
    now apply filter_keeps_key.
  - intros hsh rows H. unfold SELECT in H.
    destruct (decode_hash hsh) as [h |]; [| discriminate].
    cbn [bind] in H. injection H as <-.
    rewrite length_map. now apply hash_unique_one_row.
Qed.

Lemma hash_unique_invariant_witness :
  hash_unique [mkFingerprint [xab] "A" 1; mkFingerprint [xcd] "B" 7]
  /\ hash_unique
       (fingerprints
          (DELETE_SONGS
             (mkDb (songs two_songs)
                   [mkFingerprint [xab] "A" 1; mkFingerprint [xcd] "B" 7])
             ["A"])).
Proof.
  assert (H : hash_unique
                (fingerprints
                   (mkDb (songs two_songs)
                         [mkFingerprint [xab] "A" 1;
                          mkFingerprint [xcd] "B" 7]))).
  { unfold hash_unique. simpl. repeat constructor; simpl;
      intuition discriminate. }
  split; [exact H |].
  exact (proj1 (proj2 (hash_unique_invariant _ H)) ["A"]).
Defined.

Lemma insert_rows_unknown_song (ss : list song_row)
      (rows : list fingerprint_row) (t : list fingerprint_row) :
  (forall r, In r rows -> song_exists ss (fp_song_id r) = false) ->
  (exists r, In r rows /\ conflict t r = false) ->
  insert_rows ss t rows = Raise IntegrityError.
Proof.
  induction rows as [| r rows IH]; intros Hs (x & Hx & Hc);
    [contradiction |].
  simpl. destruct (conflict t r) eqn:Hr.
  - apply IH.
    + intros y Hy. apply Hs. now right.
    + destruct Hx as [-> | Hx]; [congruence |]. now exists x.
  - now rewrite (Hs r) by now left.
Qed.

(** Well-formed pairs all pass the column types. *)
Lemma fingerprint_values_ok (sid : uuid) (hashes : list (string * Z)) :
  (forall hsh offset, In (hsh, offset) hashes ->
                      hex_decode hsh <> None /\ is_int4 offset = true) ->
  exists rows,
    mapM fingerprint_value
         (map (fun '(hsh, offset) => (sid, hsh, offset)) hashes) = Ok rows.
Proof.
  induction hashes as [| [q o] hashes IH]; intros Hwf.
  - now exists [].
  - destruct IH as [rows Hrows].
    { intros q' o' Hin. apply Hwf. now right. }
    destruct (Hwf q o (or_introl eq_refl)) as [Hq Ho].
    cbn [map mapM]. rewrite Hrows. unfold fingerprint_value.
    destruct (hex_decode q) as [h |]; [| contradiction].
    rewrite Ho. cbn [bind]. eauto.
Qed.

(** X14.  Fingerprints for a song that is not stored are refused: when the
    pairs are well formed and at least one hash among them is not stored
    yet, [insert_hashes] raises IntegrityError (the foreign key), and the
    store stays as it was. *)
Theorem insert_hashes_unknown_song_raises :
  forall (d : db) (sid : uuid) (hashes : list (string * Z)),
    song_exists (songs d) sid = false ->
    (forall hsh offset, In (hsh, offset) hashes ->
                        hex_decode hsh <> None /\ is_int4 offset = true) ->
    (exists hsh offset h,
        In (hsh, offset) hashes /\ hex_decode hsh = Some h
        /\ ~ In h (map fp_hash (fingerprints d))) ->
    insert_hashes d sid hashes = Raise IntegrityError
    /\ store_after d (insert_hashes d sid hashes) = d.
Proof.
  intros d sid hashes Hs Hwf (hsh & offset & h & Hin & Hh & Hnew).
  assert (H : insert_hashes d sid hashes = Raise IntegrityError);
    [| now rewrite H].
  unfold insert_hashes, INSERT_FINGERPRINT.
  destruct (fingerprint_values_ok sid hashes Hwf) as [rows Hm].
  rewrite Hm. cbn [bind]. destruct (mapM_In _ _ _ Hm) as (_ & Hb & Ha).
  rewrite insert_rows_unknown_song; [reflexivity | |].
  - intros r Hr. destruct (Hb r Hr) as (v & Hv & Hf).
    apply in_map_iff in Hv. destruct Hv as ([q o] & <- & _).
    unfold fingerprint_value in Hf.
    destruct (hex_decode q); [| discriminate].
    destruct (is_int4 o); [| discriminate].
    injection Hf as <-. exact Hs.
  - destruct (Ha (sid, hsh, offset)) as (r & Hr & Hf).
    { apply in_map_iff. exists (hsh, offset). now split. }
    exists r. split; [exact Hr |].
    unfold fingerprint_value in Hf. rewrite Hh in Hf.
    destruct (is_int4 offset); [| discriminate].
    injection Hf as <-. rewrite conflict_pk.
    destruct (pk_conflict _ _) eqn:Hp; [| reflexivity].
    apply pk_conflict_In in Hp. contradiction.
Qed.

Lemma insert_hashes_unknown_song_raises_witness :
  insert_hashes two_songs "C" [("ab", 1); ("cd", 2)] = Raise IntegrityError
  /\ store_after two_songs (insert_hashes two_songs "C" [("ab", 1); ("cd", 2)])
     = two_songs.
Proof.
  apply (insert_hashes_unknown_song_raises two_songs "C" [("ab", 1); ("cd", 2)]).
  - reflexivity.
  - intros hsh offset [H | [H | []]]; injection H as <- <-;
      (split; [discriminate | reflexivity]).
  - exists "ab", 1, [xab]. repeat split; [now left | intros []].
Defined.

(** ** The songs table *)

Lemma song_exists_false_filter (ss : list song_row) (id : uuid) :
  song_exists ss id = false ->
  filter (fun s => String.eqb (song_id s) id) ss = [].
Proof.
  intros H. apply filter_none. intros s Hs.
  destruct (String.eqb (song_id s) id) eqn:He; [| reflexivity].
  assert (song_exists ss id = true); [| congruence].
  apply song_exists_In. exists s. split; [exact Hs |].
  now apply String.eqb_eq.
Qed.

Lemma song_exists_map_In (ss : list song_row) (id : uuid) :
  song_exists ss id = true <-> In id (map song_id ss).
Proof.
  rewrite song_exists_In, in_map_iff. split; intros (s & H1 & H2); eauto.
Qed.

Lemma INSERT_SONG_inv (d d' : db) (new_id id : uuid) (name file_hash : string)
      (total : Z) (type : option string) :
  insert_song d new_id name file_hash total type = Ok (id, d') ->
  exists sha,
    hex_decode file_hash = Some sha
    /\ Z.of_nat (String.length name) <= 250 /\ is_int4 total = true
    /\ type_fits type = true
    /\ song_exists (songs d) new_id = false
    /\ id = new_id
    /\ d' = mkDb (songs d ++ [mkSong new_id name 0 sha total type])
                 (fingerprints d).
Proof.
  unfold insert_song, INSERT_SONG. intros H.
  destruct (hex_decode file_hash) as [sha |]; [| discriminate].
  destruct (Z.leb_spec (Z.of_nat (String.length name)) 250) as [Hn | Hn];
    [| discriminate].
  destruct (type_fits type) eqn:Hty; [| discriminate].
  destruct (is_int4 total) eqn:Ht; [| discriminate].
  cbn [andb negb] in H.
  destruct (song_exists (songs d) new_id) eqn:Hs; [discriminate |].
  injection H as <- <-. exists sha. repeat split; auto.
Qed.

(** X15.  The primary key of the songs table is kept by every operation:
    [insert_song] (which raises IntegrityError for an id that is stored),
    [insert_hashes], the flag update and both deletes leave the song ids
    pairwise different. *)
Theorem song_ids_unique_invariant :
  forall d : db,
    song_ids_unique d ->
    (forall (new_id : uuid) (name file_hash : string) (total : Z)
            (type : option string),
        (song_exists (songs d) new_id = true ->
         hex_decode file_hash <> None ->
         Z.of_nat (String.length name) <= 250 -> type_fits type = true ->
         is_int4 total = true ->
         insert_song d new_id name file_hash total type
         = Raise IntegrityError)
        /\ forall id d',
             insert_song d new_id name file_hash total type = Ok (id, d') ->
             song_ids_unique d')
    /\ (forall (sid : uuid) (hashes : list (string * Z)) (d' : db),
           insert_hashes d sid hashes = Ok d' -> song_ids_unique d')
    /\ (forall id : uuid, song_ids_unique (UPDATE_SONG_FINGERPRINTED d id))
    /\ song_ids_unique (DELETE_UNFINGERPRINTED d)
    /\ (forall ids : list uuid, song_ids_unique (DELETE_SONGS d ids)).
Proof.
  intros d Hd. split; [| split; [| split; [| split]]].
  - intros new_id name file_hash total type. split.
    + intros Hs Hh Hn Hty Ht. unfold insert_song, INSERT_SONG.
      destruct (hex_decode file_hash); [| contradiction].
      apply Z.leb_le in Hn. now rewrite Hn, Hty, Ht, Hs.
    + intros id d' H.
      destruct (INSERT_SONG_inv _ _ _ _ _ _ _ _ H)
        as (sha & _ & _ & _ & _ & Hs & _ & ->).
      unfold song_ids_unique in *. cbn [songs]. rewrite map_app. simpl.
      apply NoDup_snoc; [exact Hd |].
      intros Hin. apply song_exists_map_In in Hin. congruence.
  - intros sid hashes d' H.
    destruct (insert_hashes_appends _ _ _ _ H) as [Hsongs _].
    unfold song_ids_unique. now rewrite Hsongs.
  - intros id. unfold song_ids_unique, UPDATE_SONG_FINGERPRINTED.
    cbn [songs]. rewrite map_map.
    erewrite map_ext; [exact Hd |].
    intros s. now destruct (String.eqb (song_id s) id).
  - unfold song_ids_unique, DELETE_UNFINGERPRINTED, delete_where.
    cbn [songs]. now apply filter_keeps_key.
  - intros ids. unfold song_ids_unique, DELETE_SONGS, delete_where.
    cbn [songs]. now apply filter_keeps_key.
Qed.

Lemma two_songs_ids_unique : song_ids_unique two_songs.
Proof.
  unfold song_ids_unique. simpl. repeat constructor; simpl;
    intuition discriminate.
Qed.

Lemma song_ids_unique_invariant_witness :
  insert_song two_songs "A" "third" "00ff" 3 None = Raise IntegrityError
  /\ song_ids_unique (DELETE_SONGS two_songs ["B"]).
Proof.
  destruct (song_ids_unique_invariant two_songs two_songs_ids_unique)
    as (Hins & _ & _ & _ & Hdel).
  split.
  - apply (proj1 (Hins "A" "third" "00ff" 3 None));
      [reflexivity | discriminate | discriminate | reflexivity | reflexivity].
  - apply Hdel.
Defined.

(** X16.  Insert a song, then select it: [insert_song] returns the id it
    was given by the generator, SELECT_SONG of that id found nothing
    before and now returns one row with the name, the file hash in upper
    case, the type and the total; the fingerprints are untouched. *)
Theorem insert_song_then_select :
  forall (d d' : db) (new_id id : uuid) (name file_hash : string)
         (total : Z) (type : option string),
    insert_song d new_id name file_hash total type = Ok (id, d') ->
    id = new_id
    /\ SELECT_SONG d id = []
    /\ SELECT_SONG d' id = [(name, upper file_hash, type, total)]
    /\ fingerprints d' = fingerprints d.
Proof.
  intros d d' new_id id name file_hash total type H.
  destruct (INSERT_SONG_inv _ _ _ _ _ _ _ _ H)
    as (sha & Hh & _ & _ & _ & Hs & -> & ->).
  pose proof (song_exists_false_filter _ _ Hs) as Hf.
  repeat split.
  - unfold SELECT_SONG. now rewrite Hf.
  - unfold SELECT_SONG. cbn [songs]. rewrite filter_app, Hf.
    cbn [filter app song_id]. rewrite String.eqb_refl. cbn [map].
    cbn [song_name file_sha1 song_type total_hashes].
    now rewrite upper_hex_encode, (hex_encode_decode _ _ Hh).
Qed.

Lemma insert_song_then_select_witness :
  "C" = "C"
  /\ SELECT_SONG two_songs "C" = []
  /\ SELECT_SONG
       (mkDb (songs two_songs ++ [mkSong "C" "third" 0 [x00; xff] 3 None]) [])
       "C"
     = [("third", upper "00ff", None, 3)]
  /\ fingerprints
       (mkDb (songs two_songs ++ [mkSong "C" "third" 0 [x00; xff] 3 None]) [])
     = fingerprints two_songs.
Proof.
  apply (insert_song_then_select two_songs _ "C" "C" "third" "00ff" 3 None).
  reflexivity.
Defined.

Lemma update_absent (ss : list song_row) (id : uuid) :
  song_exists ss id = false ->
  map (fun s => if String.eqb (song_id s) id
                then mkSong (song_id s) (song_name s) 1 (file_sha1 s)
                            (total_hashes s) (song_type s)
                else s) ss = ss.
Proof.
  intros H. induction ss as [| s ss IH]; [reflexivity |].
  unfold song_exists in H. simpl in H. apply orb_false_elim in H.
  destruct H as [Hs Hss]. simpl. rewrite Hs. f_equal. now apply IH.
Qed.

Lemma song_exists_filter (p : song_row -> bool) (ss : list song_row)
      (id : uuid) :
  song_exists ss id = false -> song_exists (filter p ss) id = false.
Proof.
  intros H. destruct (song_exists (filter p ss) id) eqn:Hf; [| reflexivity].
  apply song_exists_In in Hf. destruct Hf as (s & Hs & Hid).
  apply filter_In in Hs.
  assert (song_exists ss id = true); [| congruence].
  apply song_exists_In. exists s. now split.
Qed.

(** X17.  A song that has just been inserted is not fingerprinted: it is
    not counted and not listed among the fingerprinted songs, and
    DELETE_UNFINGERPRINTED removes it.  Once UPDATE_SONG_FINGERPRINTED has
    run for its id it is counted, and DELETE_UNFINGERPRINTED keeps it. *)
Theorem new_song_lifecycle :
  forall (d d' : db) (new_id id : uuid) (name file_hash : string)
         (total : Z) (type : option string),
    insert_song d new_id name file_hash total type = Ok (id, d') ->
    SELECT_UNIQUE_SONG_IDS d' = SELECT_UNIQUE_SONG_IDS d
    /\ SELECT_SONGS d' = SELECT_SONGS d
    /\ song_exists (songs (DELETE_UNFINGERPRINTED d')) id = false
    /\ SELECT_UNIQUE_SONG_IDS (UPDATE_SONG_FINGERPRINTED d' id)
       = SELECT_UNIQUE_SONG_IDS d + 1
    /\ song_exists
         (songs (DELETE_UNFINGERPRINTED (UPDATE_SONG_FINGERPRINTED d' id))) id
       = true.
Proof.
  intros d d' new_id id name file_hash total type H.
  destruct (INSERT_SONG_inv _ _ _ _ _ _ _ _ H)
    as (sha & _ & _ & _ & _ & Hs & -> & ->).
  split; [| split; [| split; [| split]]].
  - unfold SELECT_UNIQUE_SONG_IDS. cbn [songs]. rewrite filter_app.
    simpl. now rewrite app_nil_r.
  - unfold SELECT_SONGS. cbn [songs]. rewrite filter_app.
    simpl. now rewrite app_nil_r.
  - unfold DELETE_UNFINGERPRINTED, delete_where. cbn [songs].
    rewrite filter_app. simpl. rewrite app_nil_r.
    now apply song_exists_filter.
  - unfold SELECT_UNIQUE_SONG_IDS, UPDATE_SONG_FINGERPRINTED. cbn [songs].
    rewrite map_app, (update_absent _ _ Hs), filter_app.
    cbn [map filter song_id]. rewrite String.eqb_refl.
    cbn [fingerprinted]. simpl (1 =? 1). cbv iota.
    unfold len. rewrite length_app. simpl. lia.
  - unfold DELETE_UNFINGERPRINTED, delete_where, UPDATE_SONG_FINGERPRINTED.
    cbn [songs]. rewrite map_app, (update_absent _ _ Hs), filter_app.
    cbn [map filter song_id]. rewrite String.eqb_refl.
    cbn [fingerprinted]. simpl (1 =? 0). cbn [negb].
    unfold song_exists. rewrite existsb_app. cbn [existsb song_id].
    rewrite String.eqb_refl. now rewrite orb_true_r.
Qed.

Lemma new_song_lifecycle_witness :
  SELECT_UNIQUE_SONG_IDS
    (mkDb (songs two_songs ++ [mkSong "C" "third" 0 [x00; xff] 3 None]) [])
  = SELECT_UNIQUE_SONG_IDS two_songs
  /\ SELECT_UNIQUE_SONG_IDS
       (UPDATE_SONG_FINGERPRINTED
          (mkDb (songs two_songs ++ [mkSong "C" "third" 0 [x00; xff] 3 None])
                []) "C")
     = SELECT_UNIQUE_SONG_IDS two_songs + 1.
Proof.
  destruct (new_song_lifecycle two_songs _ "C" "C" "third" "00ff" 3 None
                               eq_refl)
    as (H1 & _ & _ & H4 & _).
  exact (conj H1 H4).
Defined.

Lemma DELETE_SONGS_cascade (d : db) (ids : list uuid) :
  no_orphans d ->
  forall r, In r (fingerprints (DELETE_SONGS d ids)) ->
            ~ In (fp_song_id r) ids.
Proof.
  intros Hd r Hin Hids.
  assert (Hr : In r (fingerprints d)).
  { unfold DELETE_SONGS, delete_where in Hin. cbn [fingerprints] in Hin.
    now apply filter_In in Hin. }
  apply Hd, song_exists_In in Hr. destruct Hr as (s & Hs & Hid).
  apply (delete_where_cascade
           d (fun s => existsb (String.eqb (song_id s)) ids) s r); auto.
  apply existsb_exists. exists (fp_song_id r). split; [exact Hids |].
  now apply String.eqb_eq.
Qed.

(** X18.  DELETE_SONGS removes the songs with the given ids and no other
    song; it keeps every fingerprint of the other songs, and in a store
    without orphans it removes exactly the fingerprints of the given ids.
    None of the ids is a stored song afterwards. *)
Theorem DELETE_SONGS_frame :
  forall (d : db) (ids : list uuid),
    (forall s, In s (songs (DELETE_SONGS d ids))
               <-> In s (songs d) /\ ~ In (song_id s) ids)
    /\ (forall r, In r (fingerprints d) -> ~ In (fp_song_id r) ids ->
                  In r (fingerprints (DELETE_SONGS d ids)))
    /\ (no_orphans d ->
        forall r, In r (fingerprints (DELETE_SONGS d ids))
                  <-> In r (fingerprints d) /\ ~ In (fp_song_id r) ids)
    /\ (forall id, In id ids ->
                   song_exists (songs (DELETE_SONGS d ids)) id = false).
Proof.
  intros d ids.
  assert (Hin_ids : forall x, existsb (String.eqb x) ids = true <-> In x ids).
  { intros x. rewrite existsb_exists. split.
    - intros (y & Hy & He). apply String.eqb_eq in He. now subst.
    - intros Hx. exists x. split; [exact Hx | apply String.eqb_refl]. }
  assert (Hsongs : forall s, In s (songs (DELETE_SONGS d ids))
                             <-> In s (songs d) /\ ~ In (song_id s) ids).
  { intros s. unfold DELETE_SONGS, delete_where. cbn [songs].
    rewrite filter_In, negb_true_iff, <- not_true_iff_false, Hin_ids.
    reflexivity. }
  assert (Hgone : forall x,
             In x (map song_id
                       (filter (fun s => existsb (String.eqb (song_id s)) ids)
                               (songs d))) -> In x ids).
  { intros x Hx. apply in_map_iff in Hx. destruct Hx as (s & <- & Hs).
    apply filter_In in Hs. now apply Hin_ids. }
  assert (Hkeep : forall r, In r (fingerprints d) -> ~ In (fp_song_id r) ids ->
                            In r (fingerprints (DELETE_SONGS d ids))).
  { intros r Hr Hnot. unfold DELETE_SONGS, delete_where. cbn [fingerprints].
    apply filter_In. split; [exact Hr |].
    apply negb_true_iff, not_true_iff_false. intros He.
    apply existsb_exists in He. destruct He as (x & Hx & He).
    apply String.eqb_eq in He. subst x. now apply Hnot, Hgone. }
  split; [exact Hsongs |]. split; [exact Hkeep |]. split.
  - intros Hno r. split.
    + intros Hr. split.
      * unfold DELETE_SONGS, delete_where in Hr. cbn [fingerprints] in Hr.
        now apply filter_In in Hr.
      * now apply (DELETE_SONGS_cascade d ids Hno r).
    + intros [Hr Hnot]. now apply Hkeep.
  - intros id Hid.
    destruct (song_exists (songs (DELETE_SONGS d ids)) id) eqn:He;
      [| reflexivity].
    apply song_exists_In in He. destruct He as (s & Hs & <-).
    apply Hsongs in Hs. now destruct Hs.
Qed.

Lemma DELETE_SONGS_frame_witness :
  In (mkFingerprint [xcd] "B" 7)
     (fingerprints
        (DELETE_SONGS
           (mkDb (songs two_songs)
                 [mkFingerprint [xab] "A" 1; mkFingerprint [xcd] "B" 7])
           ["A"]))
  <-> In (mkFingerprint [xcd] "B" 7)
         [mkFingerprint [xab] "A" 1; mkFingerprint [xcd] "B" 7]
      /\ ~ In (fp_song_id (mkFingerprint [xcd] "B" 7)) ["A"].
Proof.
  apply (proj1 (proj2 (proj2 (DELETE_SONGS_frame
                  (mkDb (songs two_songs)
                        [mkFingerprint [xab] "A" 1; mkFingerprint [xcd] "B" 7])
                  ["A"])))).
  intros r [<- | [<- | []]]; reflexivity.
Defined.

(** ** The connection cache *)



